(** * Reconciliation of the wrapper tree and the statement accessors

    A shallow embedding of [StraightReplacementNodeHandler] (the straight
    reconciliation strategy), of the [IfStatement] accessors and of the
    [StatementedNode] mixin, with the properties the specification states
    about them.

    Wrapper nodes are mutable objects with an identity: they live in a
    store keyed by their identity, and the strategy updates the store in
    place.  Underlying parse nodes are immutable trees. *)

From stdpp Require Import base option list gmap strings.

Set Warnings "-register-all".

(** ** Syntax kinds *)

(** [ts.SyntaxKind]: the closed enumeration of kind tags.  The kinds the
    sources name are constructors of their own; [OtherKind] stands for
    the remaining members of the enumeration. *)
Module SyntaxKind.
Inductive t :=
| SourceFile
| ModuleDeclaration
| FunctionDeclaration
| MethodDeclaration
| Constructor
| GetAccessor
| SetAccessor
| FunctionExpression
| ArrowFunction
| ClassDeclaration
| EnumDeclaration
| InterfaceDeclaration
| TypeAliasDeclaration
| VariableStatement
| VariableDeclarationList
| VariableDeclaration
| IfStatement
| Block
| Identifier
| OtherKind (code : nat).

#[global] Instance eq_dec : EqDecision t.
Proof. solve_decision. Defined.
End SyntaxKind.

(** ** Underlying parse nodes *)

(** [ts.Node]: an immutable node of a parse tree.  [nid] is the identity
    of the node object (what the node cache is keyed by), [children] its
    children in document order. *)
Inductive tsNode := TsNode {
  nid : nat;
  kind : SyntaxKind.t;
  children : list tsNode
}.

(** ** Wrapper nodes and the store *)

(** [Node]: the state of a live wrapper object.  The wrapper's identity
    is its key in the store; [compilerNode] is the swappable binding and
    [wrappedChildren] the materialized children in tracked order.  The
    reference to the parent wrapper plays no part in the strategy and is
    left out. *)
Record Node := mkNode {
  compilerNode : tsNode;
  wrappedChildren : list nat
}.

(** The mutable world: the wrapper objects, the node cache of the
    compiler factory (identity of an underlying node to the wrapper bound
    to it), and the history of rebinds, a ghost field that only records
    the order in which [replaceCompilerNode] ran. *)
Record Store := mkStore {
  nodes : gmap nat Node;
  nodeCache : gmap nat nat;
  rebinds : list (nat * tsNode)
}.

(** ** Errors and the monad of effects *)

Inductive JsError :=
| InvalidOperationError (message : string)
| Error (message : string)
| NotImplementedError (message : string)
| UnsupportedKindError (k : SyntaxKind.t)
| TypeError.

(** The outcome of running a piece of code from a store: normal
    completion, a raised error (with the store as the raise left it), or
    [Stuck] when the model assigns no behaviour (the recursion budget ran
    out, or a reference is not in the store). *)
Inductive Result (A : Type) :=
| Normal (a : A) (s : Store)
| Throw (e : JsError) (s : Store)
| Stuck.
Arguments Normal {A} a s.
Arguments Throw {A} e s.
Arguments Stuck {A}.

Definition M (A : Type) : Type := Store → Result A.

#[global] Instance M_ret : MRet M := λ A a s, Normal a s.

#[global] Instance M_bind : MBind M := λ A B f m s,
  match m s with
  | Normal a s' => f a s'
  | Throw e s' => Throw e s'
  | Stuck => Stuck
  end.

Definition throw {A} (e : JsError) : M A := λ s, Throw e s.

Definition stuck {A} : M A := λ _, Stuck.

(** [for (const x of xs) body], threading the loop's local variables. *)
Fixpoint for_of {A L} (xs : list A) (body : A → L → M L) (l : L) : M L :=
  match xs with
  | [] => mret l
  | x :: xs' => l' ← body x l; for_of xs' body l'
  end.

(** ** Iterators *)

Record IteratorResult (A : Type) := mkIteratorResult {
  value : option A;
  done : bool
}.
Arguments mkIteratorResult {A} value done.
Arguments value {A} _.
Arguments done {A} _.

(** Modelled from the spec: [ArrayUtils.toIterator], the "cursor over the
    new-children sequence".  The state of an iterator over an array is
    the part of the array not yet consumed. *)
Definition toIterator {A} (items : list A) : list A := items.

(** [it.next()]: the result object and the advanced iterator. *)
Definition next {A} (it : list A) : IteratorResult A * list A :=
  match it with
  | [] => (mkIteratorResult None true, [])
  | x :: it' => (mkIteratorResult (Some x) false, it')
  end.

(** ** The wrapper node's core operations *)

(** Reading the wrapper object behind a reference.  A reference that is
    not in the store has no behaviour. *)
Definition getNode (w : nat) : M Node := λ s,
  match nodes s !! w with
  | Some n => Normal n s
  | None => Stuck
  end.

(** Modelled from the spec: [Node.getKind], the [kind()] of a wrapper,
    which "returns current bound underlying node's kind". *)
Definition getKind (this : nat) : M SyntaxKind.t :=
  n ← getNode this; mret (kind (compilerNode n)).

(** Modelled from the spec: [Node._hasWrappedChildren], whether "the
    wrapper node has any materialized children". *)
Definition _hasWrappedChildren (this : nat) : M bool :=
  n ← getNode this; mret (bool_decide (wrappedChildren n ≠ [])).

(** ** The node registry *)

(** Modelled from the spec: [CompilerFactory.replaceCompilerNode], the
    registry's rebind: it "replaces the wrapper's bound underlying node,
    removes the old mapping, inserts the new one", and a kind that
    differs "fails with an InvalidOperationError".  The message of that
    error is not given and is left empty. *)
Definition replaceCompilerNode (oldNode : nat) (newNode : tsNode) : M unit := λ s,
  match nodes s !! oldNode with
  | None => Stuck
  | Some n =>
      if decide (kind (compilerNode n) = kind newNode) then
        Normal tt
          {| nodes := <[oldNode := mkNode newNode (wrappedChildren n)]> (nodes s);
             nodeCache := <[nid newNode := oldNode]> (delete (nid (compilerNode n)) (nodeCache s));
             rebinds := rebinds s ++ [(oldNode, newNode)] |}
      else Throw (InvalidOperationError EmptyString) s
  end.

(** ** The reconciliation helper *)

(** [NodeHandler]: the strategy interface, one method [handleNode].  The
    new node is a JavaScript value that may be [undefined]. *)
Definition NodeHandler : Type := nat → option tsNode → tsNode → M unit.

(** Modelled from the spec: [NodeHandlerHelper.getChildrenFast], which
    obtains "the wrapper's materialized children in their tracked order"
    and "the new underlying node's children in document order". *)
Definition getChildrenFast (currentNode : nat) (newNode : tsNode) (newSourceFile : tsNode)
  : M (list nat * list tsNode) :=
  n ← getNode currentNode; mret (wrappedChildren n, children newNode).

(** Modelled from the spec: [NodeHandlerHelper.handleForValues], "the
    dispatch point": it hands the pair to the strategy it is given, which
    in [handleChildren] is the straight strategy itself ([this]). *)
Definition handleForValues (handler : NodeHandler) (currentNode : nat)
    (newNode : option tsNode) (newSourceFile : tsNode) : M unit :=
  handler currentNode newNode newSourceFile.

(** ** StraightReplacementNodeHandler *)

Section StraightReplacementNodeHandler.

(** [getSyntaxKindName] of the utilities: the name of a kind. *)
Variable getSyntaxKindName : SyntaxKind.t → string.

(** Modelled from the spec: [Node.getKindName], the name of the wrapper's
    [kind()]. *)
Definition getKindName (this : nat) : M string :=
  k ← getKind this; mret (getSyntaxKindName k).

Definition replacingTreeMessage (current new : string) : string :=
  ("Error replacing tree! Perhaps a syntax error was inserted " +:+
   "(Current: " +:+ current +:+ " -- New: " +:+ new +:+ ").")%string.

Definition leftOverMessage : string :=
  "Error replacing tree: Should not have new children left over."%string.

(** [handleChildren], for the strategy [this] that it dispatches to. *)
Definition handleChildren (this : NodeHandler) (currentNode : nat)
    (newNode : tsNode) (newSourceFile : tsNode) : M unit :=
  '(currentNodeChildren, newNodeChildrenArray) ←
    getChildrenFast currentNode newNode newSourceFile;
  let newNodeChildren := toIterator newNodeChildrenArray in
  newNodeChildren ←
    for_of currentNodeChildren
      (λ currentNodeChild newNodeChildren,
         let '(r, newNodeChildren) := next newNodeChildren in
         handleForValues this currentNodeChild (value r) newSourceFile;;
         mret newNodeChildren)
      newNodeChildren;
  if negb (done (next newNodeChildren).1)
  then throw (Error leftOverMessage)
  else mret tt.

(** [handleNode].  The recursion through the helper is bounded by
    [fuel]; reading [newNode.kind] of [undefined] is a [TypeError]. *)
Fixpoint handleNode (fuel : nat) (currentNode : nat) (newNode : option tsNode)
    (newSourceFile : tsNode) : M unit :=
  match fuel with
  | 0 => stuck
  | S fuel' =>
      currentKind ← getKind currentNode;
      match newNode with
      | None => throw TypeError
      | Some newNode =>
          if decide (currentKind ≠ kind newNode) then
            currentName ← getKindName currentNode;
            throw (InvalidOperationError
                     (replacingTreeMessage currentName (getSyntaxKindName (kind newNode))))
          else
            hasWrapped ← _hasWrappedChildren currentNode;
            (if hasWrapped : bool
             then handleChildren (handleNode fuel') currentNode newNode newSourceFile
             else mret tt);;
            replaceCompilerNode currentNode newNode
      end
  end.

End StraightReplacementNodeHandler.

(** ** Wrapping through the registry *)

(** Modelled from the spec: [CompilerFactory.getNodeFromCompilerNode],
    the registry's wrap: it "returns the existing wrapper if the
    underlying node already has one; otherwise constructs a new Wrapper
    Node of the matching kind-specific facade type and registers it", and
    "fails with an UnsupportedKindError if the underlying node's kind has
    no facade type registered".  [hasFacade] tells the kinds that have a
    facade type; a new wrapper object gets an identity not yet in use. *)
Definition getNodeFromCompilerNode (hasFacade : SyntaxKind.t → bool)
    (node : tsNode) : M nat := λ s,
  match nodeCache s !! nid node with
  | Some w => Normal w s
  | None =>
      if hasFacade (kind node) then
        let w := fresh (dom (nodes s)) in
        Normal w {| nodes := <[w := mkNode node []]> (nodes s);
                    nodeCache := <[nid node := w]> (nodeCache s);
                    rebinds := rebinds s |}
      else Throw (UnsupportedKindError (kind node)) s
  end.

(** Modelled from the spec: [Node._getNodeFromCompilerNode], the wrap of
    the registry as the accessors of a wrapper reach it. *)
Definition _getNodeFromCompilerNode (hasFacade : SyntaxKind.t → bool)
    (node : tsNode) : M nat :=
  getNodeFromCompilerNode hasFacade node.

(** Modelled from the spec: [Node._getNodeFromCompilerNodeIfExists], of
    which the sources show the use only: it takes a node that may be
    [undefined] and returns a wrapper that may be [undefined].  It is
    the wrap when the node exists, and [undefined] when it does not. *)
Definition _getNodeFromCompilerNodeIfExists (hasFacade : SyntaxKind.t → bool)
    (node : option tsNode) : M (option nat) :=
  match node with
  | None => mret None
  | Some node => w ← _getNodeFromCompilerNode hasFacade node; mret (Some w)
  end.

(** [registered s w n]: in [s] the registry holds [w] as the wrapper of
    the node [n], and [w] is bound to that node. *)
Definition registered (s : Store) (w : nat) (n : tsNode) : Prop :=
  nodeCache s !! nid n = Some w ∧
  nid ∘ compilerNode <$> nodes s !! w = Some (nid n).

(** [cache_sound s]: every entry of the node cache leads to a wrapper
    that is bound to the node of the entry. *)
Definition cache_sound (s : Store) : Prop :=
  map_Forall (λ k w, nid ∘ compilerNode <$> nodes s !! w = Some k) (nodeCache s).

(** ** IfStatement *)

(** [ts.IfStatement]: the condition and the branches; the else branch is
    optional. *)
Record ts_IfStatement := mk_ts_IfStatement {
  expression : tsNode;
  thenStatement : tsNode;
  elseStatement : option tsNode
}.

Module IfStatement.

(** The wrapper class over a [ts.IfStatement]. *)
Record t := mk { compilerNode : ts_IfStatement }.

Section Accessors.

Variable hasFacade : SyntaxKind.t → bool.

Definition getExpression (this : t) : M nat :=
  _getNodeFromCompilerNode hasFacade (expression (compilerNode this)).

Definition getThenStatement (this : t) : M nat :=
  _getNodeFromCompilerNode hasFacade (thenStatement (compilerNode this)).

Definition getElseStatement (this : t) : M (option nat) :=
  _getNodeFromCompilerNodeIfExists hasFacade (elseStatement (compilerNode this)).

End Accessors.

End IfStatement.

(** ** StatementedNode *)

(** [Array.prototype.map] with a callback that has effects. *)
Fixpoint array_map {A B} (f : A → M B) (xs : list A) : M (list B) :=
  match xs with
  | [] => mret []
  | x :: xs' => y ← f x; ys ← array_map f xs'; mret (y :: ys)
  end.

Module StatementedNode.

(** The function-like declarations other than function declarations. *)
Inductive FunctionLikeKind :=
| MethodDeclaration
| Constructor
| GetAccessor
| SetAccessor
| FunctionExpression
| ArrowFunction.

(** [ts.SourceFile | ts.FunctionDeclaration | ts.ModuleDeclaration |
    ts.FunctionLikeDeclaration], with the [body] property the mixin
    reads.  The body of a function declaration is optional; the source
    hands the body of a module declaration to the factory unchecked,
    where a [ts.Node] is expected. *)
Inductive CompilerNode :=
| SourceFile
| ModuleDeclaration (body : tsNode)
| FunctionDeclaration (body : option tsNode)
| FunctionLikeDeclaration (k : FunctionLikeKind) (body : option tsNode).

(** The wrapper object the mixin extends: its identity and its
    underlying node. *)
Record t := mk { self : nat; node : CompilerNode }.

Definition getKind (this : t) : SyntaxKind.t :=
  match node this with
  | SourceFile => SyntaxKind.SourceFile
  | ModuleDeclaration _ => SyntaxKind.ModuleDeclaration
  | FunctionDeclaration _ => SyntaxKind.FunctionDeclaration
  | FunctionLikeDeclaration MethodDeclaration _ => SyntaxKind.MethodDeclaration
  | FunctionLikeDeclaration Constructor _ => SyntaxKind.Constructor
  | FunctionLikeDeclaration GetAccessor _ => SyntaxKind.GetAccessor
  | FunctionLikeDeclaration SetAccessor _ => SyntaxKind.SetAccessor
  | FunctionLikeDeclaration FunctionExpression _ => SyntaxKind.FunctionExpression
  | FunctionLikeDeclaration ArrowFunction _ => SyntaxKind.ArrowFunction
  end.

(** Modelled from the spec: the type guards [Node.isSourceFile],
    [Node.isNamespaceDeclaration] and [Node.isFunctionDeclaration], as
    tests of the kind. *)
Definition isSourceFile (this : t) : bool :=
  bool_decide (getKind this = SyntaxKind.SourceFile).

Definition isNamespaceDeclaration (this : t) : bool :=
  bool_decide (getKind this = SyntaxKind.ModuleDeclaration).

Definition isFunctionDeclaration (this : t) : bool :=
  bool_decide (getKind this = SyntaxKind.FunctionDeclaration).

Definition noBodyMessage : string := "Function declaration has no body."%string.

Section Mixin.

Variable hasFacade : SyntaxKind.t → bool.

(** The message of the error [Node.getNotImplementedError] builds for a
    kind. *)
Variable notImplementedMessage : SyntaxKind.t → string.

(** [Node.getMainChildrenOfKind], [VariableStatement.getDeclarationList]
    and [VariableDeclarationList.getDeclarations], of the classes the
    mixin builds on. *)
Variable getMainChildrenOfKind : t → SyntaxKind.t → M (list nat).
Variable getDeclarationList : nat → M nat.
Variable getDeclarations : nat → M (list nat).

(** Modelled from the spec: [Node.getNotImplementedError], the
    not-implemented error for the kind of the node. *)
Definition getNotImplementedError (this : t) : JsError :=
  NotImplementedError (notImplementedMessage (getKind this)).

(** [getBody]: the chain of tests of the source, with the body read
    where the test has told the type of the node. *)
Definition getBody (this : t) : M nat :=
  if isSourceFile this then mret (self this)
  else if isNamespaceDeclaration this then
    match node this with
    | ModuleDeclaration body => getNodeFromCompilerNode hasFacade body
    | _ => stuck
    end
  else if isFunctionDeclaration this then
    match node this with
    | FunctionDeclaration None => throw (NotImplementedError noBodyMessage)
    | FunctionDeclaration (Some body) => getNodeFromCompilerNode hasFacade body
    | _ => stuck
    end
  else throw (getNotImplementedError this).

Definition getClasses (this : t) : M (list nat) :=
  getMainChildrenOfKind this SyntaxKind.ClassDeclaration.

Definition getEnums (this : t) : M (list nat) :=
  getMainChildrenOfKind this SyntaxKind.EnumDeclaration.

Definition getFunctions (this : t) : M (list nat) :=
  getMainChildrenOfKind this SyntaxKind.FunctionDeclaration.

Definition getInterfaces (this : t) : M (list nat) :=
  getMainChildrenOfKind this SyntaxKind.InterfaceDeclaration.

Definition getNamespaces (this : t) : M (list nat) :=
  getMainChildrenOfKind this SyntaxKind.ModuleDeclaration.

Definition getTypeAliases (this : t) : M (list nat) :=
  getMainChildrenOfKind this SyntaxKind.TypeAliasDeclaration.

Definition getVariableStatements (this : t) : M (list nat) :=
  getMainChildrenOfKind this SyntaxKind.VariableStatement.

Definition getVariableDeclarationLists (this : t) : M (list nat) :=
  statements ← getVariableStatements this;
  array_map (λ s, getDeclarationList s) statements.

Definition getVariableDeclarations (this : t) : M (list nat) :=
  let variables := [] in
  lists ← getVariableDeclarationLists this;
  variables ← for_of lists
    (λ list variables, declarations ← getDeclarations list;
                       mret (variables ++ declarations))
    variables;
  mret variables.

End Mixin.

(** [structures.EnumStructure], as [addEnumDeclaration] reads it: the
    name, and the members, which may be left out.  [Member] stands for
    the structure of one member. *)
Record EnumStructure (Member : Type) := mkEnumStructure {
  name : string;
  members : option (list Member)
}.
Arguments mkEnumStructure {Member} name members.
Arguments name {Member} _.
Arguments members {Member} _.

(** The text [addEnumDeclaration] inserts: the template literal of the
    source. *)
Definition enumDeclarationText (indentationText name newLineChar : string) : string :=
  (indentationText +:+ "enum " +:+ name +:+ " {" +:+ newLineChar +:+
   indentationText +:+ "}" +:+ newLineChar)%string.

Section Editing.

Variable hasFacade : SyntaxKind.t → bool.
Variable notImplementedMessage : SyntaxKind.t → string.
Variable getMainChildrenOfKind : t → SyntaxKind.t → M (list nat).

(** [Node.getEnd] of a wrapper: the end offset of its node in the text. *)
Variable getEnd : nat → M Z.

(** What [addEnumDeclaration] calls on the node, on the source file, on
    the language service and on an enum declaration:
    [getRequiredSourceFile], [getLanguageService().getNewLine],
    [getChildIndentationText], [appendNewLineSeparatorIfNecessary],
    [SourceFile.insertText] and [EnumDeclaration.addMember]. *)
Variable Member : Type.
Variable getRequiredSourceFile : t → M nat.
Variable getNewLine : M string.
Variable getChildIndentationText : t → nat → M string.
Variable appendNewLineSeparatorIfNecessary : t → nat → M unit.
Variable insertText : nat → Z → string → M unit.
Variable addMember : nat → Member → M nat.

Definition getInsertPosition (this : t) : M Z :=
  if isSourceFile this then getEnd (self this)
  else
    body ← getBody hasFacade notImplementedMessage this;
    bodyEnd ← getEnd body;
    mret (bodyEnd - 1)%Z.

(** [addEnumDeclaration].  The declaration it picks is the last element
    of an array, [undefined] when the array is empty; calling a method
    of [undefined] is a [TypeError]. *)
Definition addEnumDeclaration (this : t) (structure : EnumStructure Member)
  : M (option nat) :=
  sourceFile ← getRequiredSourceFile this;
  newLineChar ← getNewLine;
  indentationText ← getChildIndentationText this sourceFile;
  appendNewLineSeparatorIfNecessary this sourceFile;;
  let text := enumDeclarationText indentationText (name structure) newLineChar in
  position ← getInsertPosition this;
  insertText sourceFile position text;;
  enumDeclarations ← getEnums getMainChildrenOfKind this;
  let declaration := last enumDeclarations in
  for_of (default [] (members structure))
    (λ member _,
       match declaration with
       | None => throw TypeError
       | Some declaration => addMember declaration member;; mret tt
       end)
    tt;;
  mret declaration.

End Editing.

End StatementedNode.

(** * The shape of a wrapper tree *)

(** The wrapper tree rooted at a wrapper, as a finite tree of wrapper
    identities: the witness that following tracked children from the
    root ends. *)
Inductive wtree := WT {
  root : nat;
  subtrees : list wtree
}.

Fixpoint height (t : wtree) : nat :=
  match t with
  | WT _ ts => S (max_list (height <$> ts))
  end.

(** The wrappers of a tree, parent first. *)
Fixpoint wids (t : wtree) : list nat :=
  match t with
  | WT w ts => w :: mjoin (wids <$> ts)
  end.

(** The nodes of a parse tree, parent first. *)
Fixpoint subnodes (n : tsNode) : list tsNode :=
  match n with
  | TsNode _ _ ns => n :: mjoin (subnodes <$> ns)
  end.

(** [shape h t]: in the store [h], the tracked children of each wrapper
    of [t] are the roots of its subtrees, in order. *)
Inductive shape (h : gmap nat Node) : wtree → Prop :=
| shape_node w ts x :
    h !! w = Some x →
    wrappedChildren x = root <$> ts →
    Forall (shape h) ts →
    shape h (WT w ts).

(** [pairable h t n]: the wrapper tree [t] lines up with the new parse
    tree [n]: kinds agree at every pair, and a wrapper that tracks
    children tracks as many as its partner has children. *)
Inductive pairable (h : gmap nat Node) : wtree → tsNode → Prop :=
| pairable_node w ts n x :
    h !! w = Some x →
    kind (compilerNode x) = kind n →
    ts = [] ∨ Forall2 (pairable h) ts (children n) →
    pairable h (WT w ts) n.


(** [wraps h t old]: in the store [h], [t] is a wrapper tree over the
    parse tree [old]: each wrapper is bound to its node, and the children
    it tracks are the wrappers of those children of the node that were
    wrapped, in document order. *)
Inductive wraps (h : gmap nat Node) : wtree → tsNode → Prop :=
| wraps_node w ts old x cs :
    h !! w = Some x →
    compilerNode x = old →
    wrappedChildren x = root <$> ts →
    cs `sublist_of` children old →
    Forall2 (wraps h) ts cs →
    wraps h (WT w ts) old.

(** [wraps_all h t old]: a wrapper tree over [old] in which a wrapper
    that tracks children tracks a wrapper for each child of its node. *)
Inductive wraps_all (h : gmap nat Node) : wtree → tsNode → Prop :=
| wraps_all_node w ts old x :
    h !! w = Some x →
    compilerNode x = old →
    wrappedChildren x = root <$> ts →
    ts = [] ∨ Forall2 (wraps_all h) ts (children old) →
    wraps_all h (WT w ts) old.

(** The pairs the strategy rebinds on a pairable tree, in the order it
    rebinds them: the pairs of the children, left to right, then the
    pair of the parent. *)
Fixpoint postorder (t : wtree) (n : tsNode) : list (nat * tsNode) :=
  match t with
  | WT w ts => mjoin (zip_with postorder ts (children n)) ++ [(w, n)]
  end.

Definition postorders (ts : list wtree) (ns : list tsNode) : list (nat * tsNode) :=
  mjoin (zip_with postorder ts ns).

(** The effect of one rebind on the store, and of a sequence of them. *)
Definition rebind (s : Store) (p : nat * tsNode) : Store :=
  match nodes s !! p.1 with
  | Some x =>
      {| nodes := <[p.1 := mkNode p.2 (wrappedChildren x)]> (nodes s);
         nodeCache := <[nid p.2 := p.1]> (delete (nid (compilerNode x)) (nodeCache s));
         rebinds := rebinds s ++ [p] |}
  | None => s
  end.

(** Following a path of child positions in a wrapper tree and in a parse
    tree. *)
Fixpoint wnode_at (t : wtree) (path : list nat) : option nat :=
  match path with
  | [] => Some (root t)
  | i :: path' => t' ← subtrees t !! i; wnode_at t' path'
  end.

Fixpoint tnode_at (n : tsNode) (path : list nat) : option tsNode :=
  match path with
  | [] => Some n
  | i :: path' => n' ← children n !! i; tnode_at n' path'
  end.

(** What the strategy never changes of a wrapper: its kind and its
    tracked children. *)
Definition skeleton (x : Node) : SyntaxKind.t * list nat :=
  (kind (compilerNode x), wrappedChildren x).

Definition same_skeleton (s s' : Store) : Prop :=
  ∀ w, skeleton <$> nodes s !! w = skeleton <$> nodes s' !! w.

(** [preserves R m]: every store [m] ends in, normally or by a raise, is
    related by [R] to the store it started from. *)
Definition preserves {A} (R : Store → Store → Prop) (m : M A) : Prop :=
  ∀ s, match m s with
       | Normal _ s' | Throw _ s' => R s s'
       | Stuck => True
       end.

(** The body of the loop of [handleChildren]. *)
Definition pairNext (this : NodeHandler) (newSourceFile : tsNode)
    (currentNodeChild : nat) (newNodeChildren : list tsNode) : M (list tsNode) :=
  let '(r, newNodeChildren) := next newNodeChildren in
  handleForValues this currentNodeChild (value r) newSourceFile;;
  mret newNodeChildren.

(** The check that closes [handleChildren]. *)
Definition noneLeftOver (newNodeChildren : list tsNode) : M unit :=
  if negb (done (next newNodeChildren).1)
  then throw (Error leftOverMessage)
  else mret tt.

(** [runs_pairable names sf t]: on the tree [t], the strategy with a
    budget that covers the height of [t] rebinds the pairs of [postorder]
    and completes. *)
Definition runs_pairable (names : SyntaxKind.t → string) (sf : tsNode) (t : wtree) : Prop :=
  ∀ n fuel s,
    shape (nodes s) t → pairable (nodes s) t n → height t ≤ fuel →
    handleNode names fuel (root t) (Some n) sf s =
    Normal tt (foldl rebind s (postorder t n)).

(** [runs_only_pairable names sf t]: the strategy completes on [t] only
    when [t] lines up with the new tree and the budget covers its
    height. *)
Definition runs_only_pairable (names : SyntaxKind.t → string) (sf : tsNode) (t : wtree) : Prop :=
  ∀ n fuel s s',
    shape (nodes s) t →
    handleNode names fuel (root t) (Some n) sf s = Normal tt s' →
    pairable (nodes s) t n ∧ height t ≤ fuel.

(** [fresh_pairs s ps]: the new nodes of [ps] are distinct objects, and
    none of them is an object a wrapper of [ps] is bound to in [s]. *)
Definition fresh_pairs (s : Store) (ps : list (nat * tsNode)) : Prop :=
  NoDup (nid <$> ps.*2) ∧
  ∀ w x n, w ∈ ps.*1 → nodes s !! w = Some x → n ∈ ps.*2 → nid (compilerNode x) ≠ nid n.

(** Pairing by position, as the specification words it: the child at
    position [i] goes to the strategy with the new child at position
    [i], [undefined] when there is none. *)
Fixpoint dispatchFrom (this : NodeHandler) (newSourceFile : tsNode)
    (newChildren : list tsNode) (i : nat) (currentChildren : list nat) : M unit :=
  match currentChildren with
  | [] => mret tt
  | c :: cs => this c (newChildren !! i) newSourceFile;;
              dispatchFrom this newSourceFile newChildren (S i) cs
  end.

(** [history_grows s s']: [s'] is [s] with a sequence of rebinds applied,
    and its history is the history of [s] followed by those rebinds. *)
Definition history_grows (s s' : Store) : Prop :=
  ∃ ps, s' = foldl rebind s ps ∧ rebinds s' = rebinds s ++ ps.

(** [rebinds_within ws s s']: [s'] is [s] with a sequence of rebinds of
    wrappers of [ws] applied, and its history is the history of [s]
    followed by those rebinds. *)
Definition rebinds_within (ws : list nat) (s s' : Store) : Prop :=
  ∃ ps, s' = foldl rebind s ps ∧ rebinds s' = rebinds s ++ ps ∧ ps.*1 ⊆ ws.

(** [stays_within names sf t]: however a run of the strategy on the
    wrapper tree [t] ends, it has rebound wrappers of [t] only. *)
Definition stays_within (names : SyntaxKind.t → string) (sf : tsNode) (t : wtree) : Prop :=
  ∀ n fuel s,
    shape (nodes s) t →
    match handleNode names fuel (root t) n sf s with
    | Normal _ s' | Throw _ s' => rebinds_within (wids t) s s'
    | Stuck => True
    end.

(** [never_stuck names sf t]: with a budget that covers the height of the
    wrapper tree [t], a run of the strategy on [t] has an outcome. *)
Definition never_stuck (names : SyntaxKind.t → string) (sf : tsNode) (t : wtree) : Prop :=
  ∀ n fuel s,
    shape (nodes s) t → height t ≤ fuel →
    handleNode names fuel (root t) n sf s ≠ Stuck.

(** The errors the strategy raises itself: the [TypeError] of reading
    the kind of [undefined], the [Error] of the left-over check, and the
    [InvalidOperationError] of two kinds that differ. *)
Definition strategy_error (names : SyntaxKind.t → string) (e : JsError) : Prop :=
  e = TypeError ∨
  e = Error leftOverMessage ∨
  ∃ current new, current ≠ new ∧
    e = InvalidOperationError (replacingTreeMessage (names current) (names new)).

(** * Sample documents *)

Module Sample.

Definition names (k : SyntaxKind.t) : string :=
  match k with
  | SyntaxKind.SourceFile => "SourceFile"
  | SyntaxKind.FunctionDeclaration => "FunctionDeclaration"
  | SyntaxKind.ClassDeclaration => "ClassDeclaration"
  | SyntaxKind.EnumDeclaration => "EnumDeclaration"
  | SyntaxKind.Block => "Block"
  | _ => "Unknown"
  end%string.

(** A source file with a function whose body block is materialized, and
    its reparse. *)
Definition oldBlock : tsNode := TsNode 102 SyntaxKind.Block [].
Definition oldFunction : tsNode := TsNode 101 SyntaxKind.FunctionDeclaration [oldBlock].
Definition oldFile : tsNode := TsNode 100 SyntaxKind.SourceFile [oldFunction].

Definition newBlock : tsNode := TsNode 202 SyntaxKind.Block [].
Definition newFunction : tsNode := TsNode 201 SyntaxKind.FunctionDeclaration [newBlock].
Definition newFile : tsNode := TsNode 200 SyntaxKind.SourceFile [newFunction].

Definition store : Store :=
  {| nodes := <[0 := mkNode oldFile [1]]>
                (<[1 := mkNode oldFunction [2]]>
                   (<[2 := mkNode oldBlock []]> ∅));
     nodeCache := <[100 := 0]> (<[101 := 1]> (<[102 := 2]> ∅));
     rebinds := [] |}.

Definition tree : wtree := WT 0 [WT 1 [WT 2 []]].

(** A source file with a function and a class, both materialized, and a
    reparse in which an enum stands where the class stood. *)
Definition oldClass : tsNode := TsNode 112 SyntaxKind.ClassDeclaration [].
Definition oldFunction2 : tsNode := TsNode 111 SyntaxKind.FunctionDeclaration [].
Definition oldFile2 : tsNode := TsNode 110 SyntaxKind.SourceFile [oldFunction2; oldClass].

Definition newEnum : tsNode := TsNode 212 SyntaxKind.EnumDeclaration [].
Definition newFunction2 : tsNode := TsNode 211 SyntaxKind.FunctionDeclaration [].
Definition newFile2 : tsNode := TsNode 210 SyntaxKind.SourceFile [newFunction2; newEnum].

Definition store2 : Store :=
  {| nodes := <[0 := mkNode oldFile2 [1; 2]]>
                (<[1 := mkNode oldFunction2 []]>
                   (<[2 := mkNode oldClass []]> ∅));
     nodeCache := <[110 := 0]> (<[111 := 1]> (<[112 := 2]> ∅));
     rebinds := [] |}.




(** The reparse of the first document with one more statement at the
    end. *)
Definition newExtra : tsNode := TsNode 203 SyntaxKind.ClassDeclaration [].
Definition newFile3 : tsNode := TsNode 200 SyntaxKind.SourceFile [newFunction; newExtra].

(** The parts of an if statement with an else clause, and the variable
    statements of a container: two statements, each with one list of
    two declarations. *)
Definition ifCondition : tsNode := TsNode 121 SyntaxKind.Identifier [].
Definition ifThen : tsNode := TsNode 122 SyntaxKind.Block [].
Definition ifElse : tsNode := TsNode 123 SyntaxKind.Block [].

Definition mainChildrenOfKind (this : StatementedNode.t) (k : SyntaxKind.t) : M (list nat) :=
  mret (if decide (k = SyntaxKind.VariableStatement) then [10; 11] else []).

Definition declarationListOf (statement : nat) : nat := statement + 10.

Definition declarationsOf (declarationList : nat) : list nat :=
  [2 * declarationList; 2 * declarationList + 1].

End Sample.

(** * A sample container to edit *)

Module SampleEdit.

Definition newLine : string := String (Ascii.ascii_of_nat 10) EmptyString.

Definition getEnd (w : nat) : M Z := mret (Z.of_nat w * 10)%Z.

Definition getRequiredSourceFile (this : StatementedNode.t) : M nat := mret 0.

Definition getNewLine : M string := mret newLine.

Definition getChildIndentationText (this : StatementedNode.t) (sourceFile : nat) : M string :=
  mret "    "%string.

Definition appendNewLineSeparatorIfNecessary (this : StatementedNode.t) (sourceFile : nat)
  : M unit := mret tt.

Definition insertText (sourceFile : nat) (position : Z) (text : string) : M unit := mret tt.

(** Members are numbers; adding one returns the sum with the declaration. *)
Definition addMember (declaration member : nat) : M nat := mret (declaration + member).

Definition mainChildrenOfKind (enums : list nat) (this : StatementedNode.t)
    (k : SyntaxKind.t) : M (list nat) :=
  mret (if decide (k = SyntaxKind.EnumDeclaration) then enums else []).

Definition sourceFile : StatementedNode.t := StatementedNode.mk 0 StatementedNode.SourceFile.

Definition bodylessFunction : StatementedNode.t :=
  StatementedNode.mk 1 (StatementedNode.FunctionDeclaration None).

End SampleEdit.

(** Tactics that build the shape of a concrete wrapper tree. *)
Ltac solve_shape :=
  repeat match goal with
    | |- shape _ _ => eapply shape_node; [reflexivity | reflexivity | ]
    | |- Forall _ _ => constructor
    end.



Ltac solve_pairable :=
  repeat match goal with
    | |- pairable _ _ _ => eapply pairable_node; [reflexivity | reflexivity | ]
    | |- [] = [] ∨ _ => left; reflexivity
    | |- _ ∨ Forall2 _ _ _ => right
    | |- Forall2 _ _ _ => constructor
    end.

(** * Reasoning about the monad *)

Lemma bind_run {A B} (m : M A) (f : A → M B) (s : Store) :
  (m ≫= f) s = match m s with
               | Normal a s' => f a s'
               | Throw e s' => Throw e s'
               | Stuck => Stuck
               end.
Proof. reflexivity. Qed.

Lemma bind_normal {A B} (m : M A) (f : A → M B) s a s' :
  m s = Normal a s' → (m ≫= f) s = f a s'.
Proof. intros H. by rewrite bind_run, H. Qed.

Lemma for_of_cons {A L} (x : A) (xs : list A) (body : A → L → M L) (l : L) (s : Store) :
  for_of (x :: xs) body l s = (l' ← body x l; for_of xs body l') s.
Proof. reflexivity. Qed.

Lemma for_of_app {A L} (xs ys : list A) (body : A → L → M L) (l : L) (s : Store) :
  for_of (xs ++ ys) body l s = (l' ← for_of xs body l; for_of ys body l') s.
Proof.
  revert l s. induction xs as [|x xs IH]; intros l s; simpl; [done|].
  rewrite !bind_run. destruct (body x l s); [|done..].
  by rewrite IH.
Qed.

Section Preserves.

Context (R : Store → Store → Prop) `{!Reflexive R, !Transitive R}.

Lemma preserves_ret {A} (a : A) : preserves R (mret a).
Proof. intros s. simpl. reflexivity. Qed.

Lemma preserves_throw {A} e : preserves R (throw (A := A) e).
Proof. intros s. simpl. reflexivity. Qed.

Lemma preserves_stuck {A} : preserves R (stuck (A := A)).
Proof. by intros s. Qed.

Lemma preserves_bind {A B} (m : M A) (f : A → M B) :
  preserves R m → (∀ a, preserves R (f a)) → preserves R (m ≫= f).
Proof.
  intros Hm Hf s. rewrite bind_run. specialize (Hm s).
  destruct (m s) as [a s1|e s1|]; [|done..].
  specialize (Hf a s1). destruct (f a s1); [| |done]; by etrans.
Qed.

Lemma preserves_for_of {A L} (xs : list A) (body : A → L → M L) (l : L) :
  (∀ x l', preserves R (body x l')) → preserves R (for_of xs body l).
Proof.
  intros Hbody. revert l. induction xs as [|x xs IH]; intros l; simpl.
  - apply preserves_ret.
  - apply preserves_bind; [apply Hbody | apply IH].
Qed.

Lemma preserves_getNode w : preserves R (getNode w).
Proof. intros s. unfold getNode. destruct (nodes s !! w); [reflexivity | done]. Qed.

Lemma preserves_getKind w : preserves R (getKind w).
Proof. apply preserves_bind; [apply preserves_getNode | intros; apply preserves_ret]. Qed.

Lemma preserves_hasWrappedChildren w : preserves R (_hasWrappedChildren w).
Proof. apply preserves_bind; [apply preserves_getNode | intros; apply preserves_ret]. Qed.

Lemma preserves_handleChildren (this : NodeHandler) w n sf :
  (∀ c v, preserves R (this c v sf)) → preserves R (handleChildren this w n sf).
Proof.
  intros Hthis. unfold handleChildren, getChildrenFast.
  apply preserves_bind.
  { apply preserves_bind; [apply preserves_getNode | intros; apply preserves_ret]. }
  intros [cs ns]. apply preserves_bind.
  - apply preserves_for_of. intros c it. destruct (next it) as [r it'].
    apply preserves_bind; [apply Hthis | intros; apply preserves_ret].
  - intros it. destruct (negb _); [apply preserves_throw | apply preserves_ret].
Qed.

Lemma preserves_handleNode names fuel w n sf :
  (∀ w' n', preserves R (replaceCompilerNode w' n')) →
  preserves R (handleNode names fuel w n sf).
Proof.
  intros Hrebind. revert w n. induction fuel as [|fuel IH]; intros w n; simpl.
  - apply preserves_stuck.
  - apply preserves_bind; [apply preserves_getKind|]. intros k.
    destruct n as [n|]; [|apply preserves_throw].
    destruct (decide _).
    + apply preserves_bind; [|intros; apply preserves_throw].
      apply preserves_bind; [apply preserves_getKind | intros; apply preserves_ret].
    + apply preserves_bind; [apply preserves_hasWrappedChildren|]. intros b.
      apply preserves_bind; [|intros; apply Hrebind].
      destruct b; [|apply preserves_ret].
      apply preserves_handleChildren. intros c v. apply IH.
Qed.

End Preserves.

#[global] Instance same_skeleton_refl : Reflexive same_skeleton.
Proof. by intros s w. Qed.

#[global] Instance same_skeleton_trans : Transitive same_skeleton.
Proof. intros s1 s2 s3 H12 H23 w. by rewrite H12. Qed.

Lemma replaceCompilerNode_skeleton w n : preserves same_skeleton (replaceCompilerNode w n).
Proof.
  intros s. unfold replaceCompilerNode.
  destruct (nodes s !! w) as [x|] eqn:Hw; [|done].
  destruct (decide _) as [Hk|]; [|reflexivity].
  intros w'. simpl. destruct (decide (w = w')) as [->|Hne].
  - rewrite lookup_insert_eq, Hw. simpl. unfold skeleton. simpl. by rewrite Hk.
  - by rewrite lookup_insert_ne.
Qed.

(** Whatever the strategy does, and however it ends, every wrapper keeps
    its kind and its tracked children. *)
Lemma handleNode_skeleton names fuel w n sf :
  preserves same_skeleton (handleNode names fuel w n sf).
Proof. apply preserves_handleNode; [apply _ ..|]. apply replaceCompilerNode_skeleton. Qed.

(** * Wrapper trees *)

Lemma wtree_ind' (P : wtree → Prop) :
  (∀ w ts, Forall P ts → P (WT w ts)) → ∀ t, P t.
Proof.
  intros H. fix IH 1. intros [w ts]. apply H.
  induction ts as [|t ts IHts]; constructor; [apply IH | apply IHts].
Qed.

Lemma Forall2_Forall_impl {A B} (R R' : A → B → Prop) (l : list A) (k : list B) :
  Forall (λ x, ∀ y, R x y → R' x y) l → Forall2 R l k → Forall2 R' l k.
Proof.
  intros Hl H2. induction H2 as [|x y l k Hxy _ IH]; [constructor|].
  inversion_clear Hl. constructor; auto.
Qed.

Lemma same_skeleton_lookup s s' w x :
  same_skeleton s s' → nodes s !! w = Some x →
  ∃ x', nodes s' !! w = Some x' ∧
        kind (compilerNode x') = kind (compilerNode x) ∧
        wrappedChildren x' = wrappedChildren x.
Proof.
  intros Hsk Hw. specialize (Hsk w). rewrite Hw in Hsk. simpl in Hsk.
  destruct (nodes s' !! w) as [x'|]; [|done].
  exists x'. unfold skeleton in Hsk. simpl in Hsk. by simplify_eq.
Qed.

Lemma shape_same_skeleton s s' t :
  same_skeleton s s' → shape (nodes s) t → shape (nodes s') t.
Proof.
  intros Hsk. induction t as [w ts IH] using wtree_ind'.
  inversion_clear 1 as [? ? x Hw Hcs Hts].
  destruct (same_skeleton_lookup _ _ _ _ Hsk Hw) as (x' & Hw' & _ & Hcs').
  apply shape_node with x'; [done | congruence |].
  rewrite Forall_forall in IH, Hts |- *. auto.
Qed.

Lemma pairable_same_skeleton s s' t n :
  same_skeleton s s' → pairable (nodes s) t n → pairable (nodes s') t n.
Proof.
  intros Hsk. revert n. induction t as [w ts IH] using wtree_ind'. intros n.
  inversion_clear 1 as [? ? ? x Hw Hk Hts].
  destruct (same_skeleton_lookup _ _ _ _ Hsk Hw) as (x' & Hw' & Hk' & _).
  apply pairable_node with x'; [done | congruence |].
  destruct Hts as [->|Hts]; [by left | right].
  by apply Forall2_Forall_impl with (R := pairable (nodes s)).
Qed.

(** A wrapper tree that tracks every child where it tracks any is a
    wrapper tree. *)
Lemma wraps_all_wraps h t old : wraps_all h t old → wraps h t old.
Proof.
  revert old. induction t as [w ts IH] using wtree_ind'. intros old.
  inversion_clear 1 as [? ? ? x Hw Hx Hc Hts].
  destruct Hts as [->|Hts].
  - apply wraps_node with x []; [done..|apply sublist_nil_l|constructor].
  - apply wraps_node with x (children old); [done..|].
    by apply Forall2_Forall_impl with (R := wraps_all h).
Qed.



Lemma postorder_unfold w ts n :
  postorder (WT w ts) n = postorders ts (children n) ++ [(w, n)].
Proof. reflexivity. Qed.

Lemma postorders_cons t ts m ms :
  postorders (t :: ts) (m :: ms) = postorder t m ++ postorders ts ms.
Proof. reflexivity. Qed.

Lemma height_unfold w ts : height (WT w ts) = S (max_list (height <$> ts)).
Proof. reflexivity. Qed.

Lemma height_subtrees fuel w ts :
  height (WT w ts) ≤ S fuel → Forall (λ t, height t ≤ fuel) ts.
Proof.
  rewrite height_unfold. intros H. apply Forall_forall. intros t Ht.
  assert (height t ≤ max_list (height <$> ts)); [|lia].
  apply max_list_elem_of_le, list_elem_of_fmap. eauto.
Qed.

Lemma height_subtrees_le fuel ts :
  Forall (λ t, height t ≤ fuel) ts → max_list (height <$> ts) ≤ fuel.
Proof.
  induction 1 as [|t ts Ht _ IH]; [simpl; lia|].
  rewrite fmap_cons. change (max_list (height t :: (height <$> ts)))
    with (height t `max` max_list (height <$> ts)). lia.
Qed.

(** * Running the strategy *)

Lemma getKind_run s w x :
  nodes s !! w = Some x → getKind w s = Normal (kind (compilerNode x)) s.
Proof. intros H. unfold getKind, getNode. by rewrite bind_run, H. Qed.

Lemma hasWrappedChildren_run s w x :
  nodes s !! w = Some x →
  _hasWrappedChildren w s = Normal (bool_decide (wrappedChildren x ≠ [])) s.
Proof. intros H. unfold _hasWrappedChildren, getNode. by rewrite bind_run, H. Qed.

Lemma replaceCompilerNode_run s w n x :
  nodes s !! w = Some x → kind (compilerNode x) = kind n →
  replaceCompilerNode w n s = Normal tt (rebind s (w, n)).
Proof.
  intros Hw Hk. unfold replaceCompilerNode, rebind. simpl. rewrite Hw.
  by rewrite decide_True.
Qed.

Lemma handleChildren_run this w n sf s x :
  nodes s !! w = Some x →
  handleChildren this w n sf s =
  (it ← for_of (wrappedChildren x) (pairNext this sf) (children n); noneLeftOver it) s.
Proof.
  intros Hw. unfold handleChildren, getChildrenFast, getNode.
  by rewrite !bind_run, Hw.
Qed.

Lemma handleNode_mismatch names fuel w n sf s x :
  nodes s !! w = Some x → kind (compilerNode x) ≠ kind n →
  handleNode names (S fuel) w (Some n) sf s =
  Throw (InvalidOperationError
           (replacingTreeMessage (names (kind (compilerNode x))) (names (kind n)))) s.
Proof.
  intros Hw Hk. simpl. rewrite (bind_normal _ _ _ _ _ (getKind_run _ _ _ Hw)).
  rewrite decide_True by done. unfold getKindName.
  by rewrite !bind_run, (getKind_run _ _ _ Hw).
Qed.

Lemma handleNode_match names fuel w n sf s x :
  nodes s !! w = Some x → kind (compilerNode x) = kind n →
  handleNode names (S fuel) w (Some n) sf s =
  ((if bool_decide (wrappedChildren x ≠ [])
    then handleChildren (handleNode names fuel) w n sf
    else mret tt);; replaceCompilerNode w n) s.
Proof.
  intros Hw Hk. simpl. rewrite (bind_normal _ _ _ _ _ (getKind_run _ _ _ Hw)).
  rewrite decide_False by (by intros []).
  by rewrite (bind_normal _ _ _ _ _ (hasWrappedChildren_run _ _ _ Hw)).
Qed.

Lemma handleNode_undefined names fuel w sf s x :
  nodes s !! w = Some x →
  handleNode names (S fuel) w None sf s = Throw TypeError s.
Proof.
  intros Hw. simpl. by rewrite (bind_normal _ _ _ _ _ (getKind_run _ _ _ Hw)).
Qed.

Lemma pairNext_some this sf c m it s :
  pairNext this sf c (m :: it) s = (this c (Some m) sf;; mret it) s.
Proof. reflexivity. Qed.

Lemma pairNext_none this sf c s :
  pairNext this sf c [] s = (this c None sf;; mret []) s.
Proof. reflexivity. Qed.

Lemma for_of_pairNext_skeleton names fuel sf cs it :
  preserves same_skeleton (for_of cs (pairNext (handleNode names fuel) sf) it).
Proof.
  apply preserves_for_of; [apply _ ..|]. intros c it'. unfold pairNext.
  destruct (next it') as [r it'']. apply preserves_bind; [apply _| |].
  - apply handleNode_skeleton.
  - intros. apply preserves_ret. apply _.
Qed.

(** The loop over a prefix of children that line up with their partners:
    it leaves the rest of the new children in the iterator. *)
Lemma for_of_pairable_prefix names sf fuel pre :
  Forall (runs_pairable names sf) pre →
  ∀ ms rest s,
    Forall (shape (nodes s)) pre →
    Forall2 (pairable (nodes s)) pre ms →
    Forall (λ t, height t ≤ fuel) pre →
    for_of (root <$> pre) (pairNext (handleNode names fuel) sf) (ms ++ rest) s =
    Normal rest (foldl rebind s (postorders pre ms)).
Proof.
  induction 1 as [|t pre Ht _ IH]; intros ms rest s Hsh Hp Hh.
  - inversion_clear Hp. reflexivity.
  - inversion Hp as [|? m ? ms' Hpt Hp']; subst.
    inversion_clear Hsh as [|? ? Hsht Hsh']. inversion_clear Hh as [|? ? Hht Hh'].
    rewrite fmap_cons. simpl for_of. rewrite bind_run. simpl app.
    rewrite pairNext_some, bind_run.
    pose proof (Ht m fuel s Hsht Hpt Hht) as Hrun. rewrite Hrun. simpl.
    pose proof (handleNode_skeleton names fuel (root t) (Some m) sf s) as Hsk.
    rewrite Hrun in Hsk.
    rewrite postorders_cons, foldl_app.
    apply IH; [| |done].
    + apply (Forall_impl _ _ _ Hsh'). intros t'. by apply shape_same_skeleton.
    + apply (Forall2_impl _ _ _ _ Hp'). intros t' m'. by apply pairable_same_skeleton.
Qed.

Lemma handleNode_pairable names sf t : runs_pairable names sf t.
Proof.
  induction t as [w ts IH] using wtree_ind'. intros n fuel s Hsh Hp Hh.
  destruct fuel as [|fuel]; [rewrite height_unfold in Hh; lia|].
  inversion Hsh as [? ? x Hw Hcs Hts]; subst.
  inversion Hp as [? ? ? x' Hw' Hk Hps]; subst. simplify_eq.
  simpl root. rewrite (handleNode_match _ _ _ _ _ _ _ Hw Hk), postorder_unfold, foldl_app.
  rewrite bind_run. case_bool_decide as Hne.
  - destruct Hps as [->|Hps]; [by rewrite Hcs in Hne|].
    rewrite (handleChildren_run _ _ _ _ _ _ Hw), Hcs, bind_run.
    pose proof (for_of_pairable_prefix names sf fuel ts IH (children n) [] s Hts) as Hloop.
    rewrite app_nil_r in Hloop.
    specialize (Hloop Hps (height_subtrees _ _ _ Hh)).
    pose proof (for_of_pairNext_skeleton names fuel sf (root <$> ts) (children n) s) as Hsk.
    rewrite Hloop in Hsk |- *.
    destruct (same_skeleton_lookup _ _ _ _ Hsk Hw) as (x1 & Hw1 & Hk1 & _).
    simpl. apply (replaceCompilerNode_run _ _ _ _ Hw1). congruence.
  - assert (ts = []) as ->.
    { destruct ts; [done|]. by rewrite Hcs in Hne. }
    simpl. by apply (replaceCompilerNode_run _ _ _ _ Hw).
Qed.

#[global] Instance same_skeleton_sym : Symmetric same_skeleton.
Proof. intros s1 s2 H w. by rewrite H. Qed.

Lemma handleNode_undefined_not_normal names fuel w sf s s' :
  handleNode names fuel w None sf s ≠ Normal tt s'.
Proof.
  destruct fuel as [|fuel]; [done|]. simpl. unfold getKind, getNode.
  rewrite !bind_run. by destruct (nodes s !! w).
Qed.

Lemma for_of_normal_pairable names sf fuel ts :
  Forall (runs_only_pairable names sf) ts →
  ∀ ns s it s',
    Forall (shape (nodes s)) ts →
    for_of (root <$> ts) (pairNext (handleNode names fuel) sf) ns s = Normal it s' →
    ∃ ms, ns = ms ++ it ∧ Forall2 (pairable (nodes s)) ts ms ∧
          Forall (λ t, height t ≤ fuel) ts.
Proof.
  induction 1 as [|t ts Ht _ IH]; intros ns s it s' Hsh Hrun.
  - simpl in Hrun. injection Hrun as -> ->. by exists [].
  - inversion_clear Hsh as [|? ? Hsht Hsh'].
    rewrite fmap_cons in Hrun. simpl for_of in Hrun. rewrite bind_run in Hrun.
    destruct ns as [|m ns].
    + rewrite pairNext_none, bind_run in Hrun.
      destruct (handleNode names fuel (root t) None sf s) as [[] s0| |] eqn:Hc; [|done..].
      by apply handleNode_undefined_not_normal in Hc.
    + rewrite pairNext_some, bind_run in Hrun.
      destruct (handleNode names fuel (root t) (Some m) sf s) as [[] s0| |] eqn:Hc; [|done..].
      simpl in Hrun.
      pose proof (handleNode_skeleton names fuel (root t) (Some m) sf s) as Hsk.
      rewrite Hc in Hsk.
      destruct (Ht m fuel s s0 Hsht Hc) as [Hpt Hht].
      destruct (IH ns s0 it s') as (ms & -> & Hps & Hhs); [|done|].
      { apply (Forall_impl _ _ _ Hsh'). intros t'. by apply shape_same_skeleton. }
      exists (m :: ms). split_and!; [done| |by constructor].
      constructor; [done|].
      apply (Forall2_impl _ _ _ _ Hps). intros t' m'.
      by apply pairable_same_skeleton.
Qed.

Lemma noneLeftOver_normal it s s' : noneLeftOver it s = Normal tt s' → it = [] ∧ s' = s.
Proof. destruct it; [|done]. unfold noneLeftOver. simpl. by intros [= ->]. Qed.

Lemma handleNode_normal_pairable names sf t : runs_only_pairable names sf t.
Proof.
  induction t as [w ts IH] using wtree_ind'. intros n fuel s s' Hsh Hrun.
  destruct fuel as [|fuel]; [done|].
  inversion Hsh as [? ? x Hw Hcs Hts]; subst. simpl root in Hrun.
  destruct (decide (kind (compilerNode x) = kind n)) as [Hk|Hk];
    [|by rewrite (handleNode_mismatch _ _ _ _ _ _ _ Hw Hk) in Hrun].
  rewrite (handleNode_match _ _ _ _ _ _ _ Hw Hk), bind_run in Hrun.
  case_bool_decide as Hne.
  - rewrite (handleChildren_run _ _ _ _ _ _ Hw), Hcs, bind_run in Hrun.
    destruct (for_of _ _ _ s) as [it s1| |] eqn:Hloop; [|done..].
    destruct (noneLeftOver it s1) as [[] s2| |] eqn:Hleft; [|done..].
    apply noneLeftOver_normal in Hleft as [-> ->].
    destruct (for_of_normal_pairable _ _ _ _ IH _ _ _ _ Hts Hloop) as (ms & Hms & Hps & Hhs).
    rewrite app_nil_r in Hms. subst ms. split.
    + apply pairable_node with x; auto.
    + rewrite height_unfold. apply le_n_S. by apply height_subtrees_le.
  - assert (ts = []) as ->.
    { destruct ts; [done|]. by rewrite Hcs in Hne. }
    split; [|rewrite height_unfold; simpl; lia].
    apply pairable_node with x; auto.
Qed.

(** A run that completes is the run of [handleNode_pairable]. *)
Lemma handleNode_normal names sf t n fuel s s' :
  shape (nodes s) t →
  handleNode names fuel (root t) (Some n) sf s = Normal tt s' →
  pairable (nodes s) t n ∧ s' = foldl rebind s (postorder t n).
Proof.
  intros Hsh Hrun.
  destruct (handleNode_normal_pairable names sf t n fuel s s' Hsh Hrun) as [Hp Hh].
  split; [done|]. rewrite (handleNode_pairable names sf t n fuel s Hsh Hp Hh) in Hrun.
  by injection Hrun.
Qed.

(** * The effect of a sequence of rebinds *)

Lemma rebind_nodes_ne s p w : w ≠ p.1 → nodes (rebind s p) !! w = nodes s !! w.
Proof.
  intros Hne. unfold rebind. destruct (nodes s !! p.1); [|done].
  simpl. by rewrite lookup_insert_ne.
Qed.

Lemma rebind_nodes_eq s w n x :
  nodes s !! w = Some x →
  nodes (rebind s (w, n)) !! w = Some (mkNode n (wrappedChildren x)).
Proof. intros Hw. unfold rebind. simpl. rewrite Hw. simpl. by rewrite lookup_insert_eq. Qed.

Lemma rebind_children s p w :
  wrappedChildren <$> nodes (rebind s p) !! w = wrappedChildren <$> nodes s !! w.
Proof.
  destruct (decide (w = p.1)) as [->|Hne]; [|by rewrite rebind_nodes_ne].
  destruct p as [w n]. unfold rebind. simpl.
  destruct (nodes s !! w) as [x|] eqn:Hw; [|by rewrite Hw].
  simpl. by rewrite lookup_insert_eq.
Qed.

Lemma foldl_rebind_children ps s w :
  wrappedChildren <$> nodes (foldl rebind s ps) !! w = wrappedChildren <$> nodes s !! w.
Proof.
  revert s. induction ps as [|p ps IH]; intros s; [done|].
  simpl. by rewrite IH, rebind_children.
Qed.

(** Wrappers that are not rebound are not touched. *)
Lemma foldl_rebind_frame ps s w :
  w ∉ ps.*1 → nodes (foldl rebind s ps) !! w = nodes s !! w.
Proof.
  revert s. induction ps as [|p ps IH]; intros s Hw; [done|].
  rewrite fmap_cons, not_elem_of_cons in Hw. destruct Hw as [Hne Hw].
  simpl. by rewrite IH, rebind_nodes_ne.
Qed.

(** A wrapper that is rebound once ends bound to the node of its pair. *)
Lemma foldl_rebind_bound ps s w n x :
  NoDup ps.*1 → (w, n) ∈ ps → nodes s !! w = Some x →
  nodes (foldl rebind s ps) !! w = Some (mkNode n (wrappedChildren x)).
Proof.
  revert s. induction ps as [|p ps IH]; intros s Hnd Hin Hw.
  { by apply not_elem_of_nil in Hin. }
  rewrite fmap_cons in Hnd. apply NoDup_cons in Hnd as [Hp Hnd].
  apply elem_of_cons in Hin as [<-|Hin]; simpl.
  - rewrite foldl_rebind_frame by done. by apply rebind_nodes_eq.
  - apply IH; [done..|]. rewrite rebind_nodes_ne; [done|].
    intros ->. apply Hp, list_elem_of_fmap. by exists (p.1, n).
Qed.

(** A wrapper that is rebound ends bound to the node of one of its pairs. *)
Lemma foldl_rebind_rebound ps s w :
  w ∈ ps.*1 → is_Some (nodes s !! w) →
  ∃ x n, nodes (foldl rebind s ps) !! w = Some x ∧ compilerNode x = n ∧ (w, n) ∈ ps.
Proof.
  revert s. induction ps as [|p ps IH]; intros s Hin Hw.
  { by apply not_elem_of_nil in Hin. }
  destruct (decide (w ∈ ps.*1)) as [Hin'|Hin'].
  - destruct (IH (rebind s p) Hin') as (x & n & ? & ? & ?).
    { pose proof (rebind_children s p w) as Hc. destruct Hw as [x Hw].
      rewrite Hw in Hc. by destruct (nodes (rebind s p) !! w). }
    exists x, n. split_and!; [done..|]. by apply elem_of_cons; right.
  - rewrite fmap_cons in Hin. apply elem_of_cons in Hin as [->|]; [|done].
    destruct Hw as [x Hw]. destruct p as [w n]. simpl in *.
    exists (mkNode n (wrappedChildren x)), n.
    rewrite foldl_rebind_frame by done.
    split_and!; [by apply rebind_nodes_eq | done | by apply elem_of_cons; left].
Qed.

(** The history grows by the rebinds, in their order. *)
Lemma foldl_rebind_rebinds ps s :
  (∀ w, w ∈ ps.*1 → is_Some (nodes s !! w)) →
  rebinds (foldl rebind s ps) = rebinds s ++ ps.
Proof.
  revert s. induction ps as [|p ps IH]; intros s Hin; [by rewrite app_nil_r|].
  simpl. rewrite IH.
  - destruct (Hin p.1) as [x Hw]; [rewrite fmap_cons; by apply elem_of_cons; left|].
    unfold rebind at 1. rewrite Hw. simpl. by rewrite <- app_assoc.
  - intros w Hw. pose proof (rebind_children s p w) as Hc.
    destruct (Hin w) as [x Hx]; [rewrite fmap_cons; by apply elem_of_cons; right|].
    rewrite Hx in Hc. by destruct (nodes (rebind s p) !! w).
Qed.

(** A key of the node cache that no rebind inserts or removes keeps its
    entry. *)
Lemma foldl_rebind_cache_frame ps s k :
  NoDup ps.*1 →
  (∀ n, n ∈ ps.*2 → nid n ≠ k) →
  (∀ w x, w ∈ ps.*1 → nodes s !! w = Some x → nid (compilerNode x) ≠ k) →
  nodeCache (foldl rebind s ps) !! k = nodeCache s !! k.
Proof.
  revert s. induction ps as [|[w n] ps IH]; intros s Hnd Hnew Hold; [done|].
  rewrite fmap_cons in Hnd. apply NoDup_cons in Hnd as [Hw Hnd]. simpl in Hw.
  simpl. rewrite IH; [|done|..].
  - unfold rebind. simpl. destruct (nodes s !! w) as [x|] eqn:Hx; [|done]. simpl.
    rewrite lookup_insert_ne, lookup_delete_ne; [done|..].
    + apply (Hold w x); [rewrite fmap_cons; by apply elem_of_cons; left | done].
    + apply Hnew. rewrite fmap_cons. by apply elem_of_cons; left.
  - intros n' Hn'. apply Hnew. rewrite fmap_cons. by apply elem_of_cons; right.
  - intros w' x' Hw' Hx'. rewrite rebind_nodes_ne in Hx'.
    + apply (Hold w' x'); [rewrite fmap_cons; by apply elem_of_cons; right | done].
    + simpl. intros ->. done.
Qed.

(** With fresh new nodes, the node cache ends with an entry from each new
    node to the wrapper rebound to it. *)
Lemma foldl_rebind_cache ps s w n :
  NoDup ps.*1 → fresh_pairs s ps →
  (∀ w', w' ∈ ps.*1 → is_Some (nodes s !! w')) →
  (w, n) ∈ ps →
  nodeCache (foldl rebind s ps) !! nid n = Some w.
Proof.
  revert s. induction ps as [|[w0 n0] ps IH]; intros s Hnd [Hnids Hfresh] Hdom Hin.
  { by apply not_elem_of_nil in Hin. }
  rewrite fmap_cons in Hnd. apply NoDup_cons in Hnd as [Hw0 Hnd]. simpl in Hw0.
  rewrite !fmap_cons in Hnids. apply NoDup_cons in Hnids as [Hn0 Hnids]. simpl in Hn0.
  assert (∀ w' x', w' ∈ ps.*1 → nodes (rebind s (w0, n0)) !! w' = Some x' →
                   nodes s !! w' = Some x') as Hsame.
  { intros w' x' Hw' Hx'. rewrite rebind_nodes_ne in Hx'; [done|].
    simpl. by intros ->. }
  apply elem_of_cons in Hin as [[= -> ->]|Hin]; simpl.
  - rewrite foldl_rebind_cache_frame; [|done|..].
    + destruct (Hdom w0) as [x Hx]; [rewrite fmap_cons; by apply elem_of_cons; left|].
      unfold rebind. simpl. rewrite Hx. simpl. by rewrite lookup_insert_eq.
    + intros n' Hn' Heq. apply Hn0. rewrite <- Heq. apply list_elem_of_fmap. eauto.
    + intros w' x' Hw' Hx'. apply Hsame in Hx'; [|done].
      apply (Hfresh w' x' n0); [rewrite fmap_cons; by apply elem_of_cons; right | done |].
      rewrite fmap_cons. by apply elem_of_cons; left.
  - apply IH; [done| |..|done].
    + split; [done|]. intros w' x' n' Hw' Hx' Hn'. apply Hsame in Hx'; [|done].
      apply (Hfresh w' x' n'); [|done|]; rewrite fmap_cons; by apply elem_of_cons; right.
    + intros w' Hw'. pose proof (rebind_children s (w0, n0) w') as Hc.
      destruct (Hdom w') as [x' Hx']; [rewrite fmap_cons; by apply elem_of_cons; right|].
      rewrite Hx' in Hc. by destruct (nodes (rebind s (w0, n0)) !! w').
Qed.

(** * The pairs of a reconciliation *)

Lemma submseteq_NoDup {A} (l k : list A) : l ⊆+ k → NoDup k → NoDup l.
Proof.
  intros [k' Hk]%submseteq_Permutation Hnd. rewrite Hk in Hnd.
  by apply NoDup_app in Hnd as [? _].
Qed.

Lemma subnodes_unfold n : subnodes n = n :: mjoin (subnodes <$> children n).
Proof. by destruct n. Qed.

Lemma wids_unfold w ts : wids (WT w ts) = w :: mjoin (wids <$> ts).
Proof. reflexivity. Qed.

Lemma postorders_nil_l ns : postorders [] ns = [].
Proof. reflexivity. Qed.

Lemma postorders_nil_r ts : postorders ts [] = [].
Proof. by destruct ts. Qed.

(** The pairs of the children are the pairs of the children at the same
    position. *)
Lemma elem_of_postorders ts ns p :
  p ∈ postorders ts ns ↔
  ∃ i t m, ts !! i = Some t ∧ ns !! i = Some m ∧ p ∈ postorder t m.
Proof.
  revert ns. induction ts as [|t ts IH]; intros ns.
  { rewrite postorders_nil_l. split; [by intros ?%not_elem_of_nil|].
    by intros (i & ? & ? & ? & _). }
  destruct ns as [|m ns].
  { rewrite postorders_nil_r. split; [by intros ?%not_elem_of_nil|].
    by intros (i & ? & ? & _ & ? & _). }
  rewrite postorders_cons, elem_of_app, IH. split.
  - intros [Hp|(i & t' & m' & ? & ? & ?)]; [by exists 0, t, m|].
    by exists (S i), t', m'.
  - intros ([|i] & t' & m' & Ht & Hm & Hp); simpl in *; simplify_eq; [by left|].
    right. by exists i, t', m'.
Qed.

(** The wrappers of the pairs are wrappers of the tree, each at most as
    often as in the tree. *)
Lemma postorder_wids t : ∀ n, (postorder t n).*1 ⊆+ wids t.
Proof.
  induction t as [w ts IH] using wtree_ind'. intros n.
  rewrite postorder_unfold, wids_unfold, fmap_app. simpl.
  rewrite <- Permutation_cons_append. apply submseteq_skip.
  generalize (children n). clear n.
  induction IH as [|t ts Ht _ IHts]; intros ns.
  { rewrite postorders_nil_l. apply submseteq_nil_l. }
  destruct ns as [|m ns]; [rewrite postorders_nil_r; apply submseteq_nil_l|].
  rewrite postorders_cons, fmap_app, fmap_cons. simpl.
  by apply submseteq_app.
Qed.

(** The nodes of the pairs are nodes of the new tree, each at most as
    often as in the tree. *)
Lemma postorder_subnodes t : ∀ n, (postorder t n).*2 ⊆+ subnodes n.
Proof.
  induction t as [w ts IH] using wtree_ind'. intros n.
  rewrite postorder_unfold, subnodes_unfold, fmap_app. simpl.
  rewrite <- Permutation_cons_append. apply submseteq_skip.
  generalize (children n). clear n.
  induction IH as [|t ts Ht _ IHts]; intros ns.
  { rewrite postorders_nil_l. apply submseteq_nil_l. }
  destruct ns as [|m ns]; [rewrite postorders_nil_r; apply submseteq_nil_l|].
  rewrite postorders_cons, fmap_app, fmap_cons. simpl.
  by apply submseteq_app.
Qed.

(** On a pairable tree every wrapper of the tree is in a pair. *)
Lemma pairable_wids h t : ∀ n, pairable h t n → wids t ⊆+ (postorder t n).*1.
Proof.
  induction t as [w ts IH] using wtree_ind'. intros n.
  inversion_clear 1 as [? ? ? x _ _ Hts].
  rewrite postorder_unfold, wids_unfold, fmap_app. simpl.
  rewrite <- Permutation_cons_append. apply submseteq_skip.
  destruct Hts as [->|Hts]; [apply submseteq_nil_l|].
  induction Hts as [|t m ts ns Htm _ IHts]; [done|].
  inversion_clear IH as [|? ? Ht Hts'].
  rewrite postorders_cons, fmap_app, fmap_cons. simpl.
  apply submseteq_app; auto.
Qed.

(** The wrapper and the node at the same path are a pair. *)
Lemma postorder_at_path t : ∀ n path w m,
  wnode_at t path = Some w → tnode_at n path = Some m → (w, m) ∈ postorder t n.
Proof.
  induction t as [w0 ts IH] using wtree_ind'. intros n path w m Hw Hm.
  rewrite postorder_unfold, elem_of_app.
  destruct path as [|i path]; simpl in *.
  { right. simplify_eq. apply list_elem_of_singleton. done. }
  left. destruct (ts !! i) as [t|] eqn:Ht; [|done].
  destruct (children n !! i) as [m'|] eqn:Hm'; [|done]. simpl in *.
  apply elem_of_postorders. exists i, t, m'. split_and!; [done..|].
  rewrite Forall_forall in IH. eapply IH; [|done..].
  by eapply list_elem_of_lookup_2.
Qed.

(** Every wrapper of a tree is at some path. *)
Lemma wids_at_path t : ∀ w, w ∈ wids t → ∃ path, wnode_at t path = Some w.
Proof.
  induction t as [w0 ts IH] using wtree_ind'. intros w.
  rewrite wids_unfold, elem_of_cons, list_elem_of_join.
  intros [->|(l & Hw & Hl)]; [by exists []|].
  apply list_elem_of_fmap in Hl as (t & -> & Ht).
  rewrite Forall_forall in IH. destruct (IH t Ht w Hw) as [path Hpath].
  apply list_elem_of_lookup in Ht as [i Hi].
  exists (i :: path). simpl. by rewrite Hi.
Qed.

(** * Positional pairing *)

Lemma next_drop {A} (ns : list A) i :
  next (drop i ns) =
  (mkIteratorResult (ns !! i) (bool_decide (length ns ≤ i)), drop (S i) ns).
Proof.
  revert i. induction ns as [|m ns IH]; intros i.
  - rewrite drop_nil. simpl. by destruct i.
  - destruct i as [|i]; simpl.
    + by rewrite drop_0.
    + rewrite IH. repeat f_equal. apply bool_decide_ext. lia.
Qed.

Lemma for_of_positional this sf ns cs : ∀ i s,
  for_of cs (pairNext this sf) (drop i ns) s =
  (dispatchFrom this sf ns i cs;; mret (drop (i + length cs) ns)) s.
Proof.
  induction cs as [|c cs IH]; intros i s; simpl.
  - by rewrite Nat.add_0_r.
  - rewrite !bind_run. unfold pairNext at 1. rewrite next_drop. simpl.
    rewrite bind_run. unfold handleForValues.
    destruct (this c (ns !! i) sf s) as [[] s1| |]; [|done..].
    simpl. rewrite IH, bind_run.
    by replace (S i + length cs) with (i + S (length cs)) by lia.
Qed.

(** [handleChildren] pairs by position, and raises when the new node has
    more children than the wrapper tracks. *)
Lemma handleChildren_positional this w n sf s x :
  nodes s !! w = Some x →
  handleChildren this w n sf s =
  (dispatchFrom this sf (children n) 0 (wrappedChildren x);;
   if bool_decide (length (wrappedChildren x) < length (children n))
   then throw (Error leftOverMessage)
   else mret tt) s.
Proof.
  intros Hw. rewrite (handleChildren_run _ _ _ _ _ _ Hw).
  rewrite !bind_run. rewrite <- (drop_0 (children n)) at 1.
  rewrite for_of_positional, bind_run.
  destruct (dispatchFrom _ _ _ _ _ s) as [[] s1| |]; [|done..].
  simpl. unfold noneLeftOver. rewrite next_drop. simpl.
  case_bool_decide; case_bool_decide; try lia; done.
Qed.

(** * Consequences for a wrapper tree *)

Lemma same_skeleton_dom s s' : same_skeleton s s' → dom (nodes s') = dom (nodes s).
Proof.
  intros Hsk. apply set_eq. intros w. rewrite !elem_of_dom.
  specialize (Hsk w).
  destruct (nodes s !! w) as [x|], (nodes s' !! w) as [x'|]; simpl in Hsk;
    try done; split; eauto.
Qed.

Lemma shape_wids_dom h t : shape h t → ∀ w, w ∈ wids t → is_Some (h !! w).
Proof.
  induction t as [w0 ts IH] using wtree_ind'.
  inversion_clear 1 as [? ? x Hw _ Hts]. intros w.
  rewrite wids_unfold, elem_of_cons, list_elem_of_join.
  intros [->|(l & Hl & Hin)]; [by exists x|].
  apply list_elem_of_fmap in Hin as (t & -> & Ht).
  rewrite Forall_forall in IH, Hts. by apply (IH t Ht (Hts t Ht)).
Qed.

(** On a pairable tree every path of the wrapper tree is a path of the
    new tree. *)
Lemma pairable_at_path h t : ∀ n path w,
  pairable h t n → wnode_at t path = Some w → is_Some (tnode_at n path).
Proof.
  induction t as [w0 ts IH] using wtree_ind'. intros n path w Hp Hw.
  destruct path as [|i path]; [by eexists|]. simpl in *.
  destruct (ts !! i) as [t|] eqn:Ht; [|done]. simpl in Hw.
  inversion Hp as [? ? ? x Hx Hk Hts]; subst.
  destruct Hts as [->|Hts]; [done|].
  destruct (Forall2_lookup_l _ _ _ _ _ Hts Ht) as (m & Hm & Hpm).
  rewrite Hm. simpl. rewrite Forall_forall in IH.
  eapply IH; [|done..]. by eapply list_elem_of_lookup_2.
Qed.

Lemma postorder_dom h t n w : shape h t → w ∈ (postorder t n).*1 → is_Some (h !! w).
Proof.
  intros Hsh Hw. apply (shape_wids_dom h t Hsh).
  eapply elem_of_submseteq; [done | apply postorder_wids].
Qed.

Lemma postorders_wids ts ns : (postorders ts ns).*1 ⊆+ mjoin (wids <$> ts).
Proof.
  revert ns. induction ts as [|t ts IH]; intros ns.
  { rewrite postorders_nil_l. apply submseteq_nil_l. }
  destruct ns as [|m ns]; [rewrite postorders_nil_r; apply submseteq_nil_l|].
  rewrite postorders_cons, fmap_app, fmap_cons. simpl.
  apply submseteq_app; [apply postorder_wids | apply IH].
Qed.

Lemma shapes_wids_dom h ts w :
  Forall (shape h) ts → w ∈ mjoin (wids <$> ts) → is_Some (h !! w).
Proof.
  intros Hts (l & Hl & Hin)%list_elem_of_join.
  apply list_elem_of_fmap in Hin as (t & -> & Ht).
  rewrite Forall_forall in Hts. by apply (shape_wids_dom h t (Hts t Ht)).
Qed.

(** ** The history only grows *)

#[global] Instance history_grows_refl : Reflexive history_grows.
Proof. intros s. exists []. by rewrite app_nil_r. Qed.

#[global] Instance history_grows_trans : Transitive history_grows.
Proof.
  intros s1 s2 s3 (ps & -> & H12) (qs & -> & H23). exists (ps ++ qs).
  by rewrite foldl_app, H23, H12, app_assoc.
Qed.

Lemma replaceCompilerNode_history w n : preserves history_grows (replaceCompilerNode w n).
Proof.
  intros s. unfold replaceCompilerNode.
  destruct (nodes s !! w) as [x|] eqn:Hw; [|done].
  destruct (decide _) as [Hk|]; [|reflexivity].
  exists [(w, n)]. simpl. unfold rebind. simpl. by rewrite Hw.
Qed.

(** However a run ends, the store it ends in is the store it started
    from with the rebinds it performed applied in order: nothing is
    undone. *)
Lemma handleNode_history names fuel w n sf :
  preserves history_grows (handleNode names fuel w n sf).
Proof. apply preserves_handleNode; [apply _ ..|]. apply replaceCompilerNode_history. Qed.

Lemma handleChildren_history names fuel w n sf :
  preserves history_grows (handleChildren (handleNode names fuel) w n sf).
Proof.
  apply preserves_handleChildren; [apply _ ..|]. intros c v. apply handleNode_history.
Qed.

(** ** The footprint of a run *)

Lemma rebinds_within_refl ws s : rebinds_within ws s s.
Proof.
  exists []. split_and!; [done | by rewrite app_nil_r |].
  intros w Hw. by apply not_elem_of_nil in Hw.
Qed.

Lemma rebinds_within_mono ws ws' s s' :
  ws ⊆ ws' → rebinds_within ws s s' → rebinds_within ws' s s'.
Proof. intros Hsub (ps & ? & ? & Hin). exists ps. split_and!; [done..|]. by etrans. Qed.

Lemma rebinds_within_trans ws s1 s2 s3 :
  rebinds_within ws s1 s2 → rebinds_within ws s2 s3 → rebinds_within ws s1 s3.
Proof.
  intros (ps & -> & Hps & Hin1) (qs & -> & Hqs & Hin2). exists (ps ++ qs).
  split_and!.
  - by rewrite foldl_app.
  - by rewrite Hqs, Hps, app_assoc.
  - rewrite fmap_app. intros w [Hw|Hw]%elem_of_app; auto.
Qed.

Lemma rebinds_within_one ws s w n x :
  nodes s !! w = Some x → w ∈ ws → rebinds_within ws s (rebind s (w, n)).
Proof.
  intros Hw Hin. exists [(w, n)]. split_and!; [done| |].
  - unfold rebind. simpl. by rewrite Hw.
  - intros w' Hw'. apply list_elem_of_singleton in Hw'. by subst.
Qed.

Lemma rebinds_within_frame ws s s' w :
  rebinds_within ws s s' → w ∉ ws → nodes s' !! w = nodes s !! w.
Proof.
  intros (ps & -> & _ & Hin) Hw. apply foldl_rebind_frame.
  intros Hps. by apply Hw, Hin.
Qed.

Lemma wids_head_subseteq t ts : wids t ⊆ mjoin (wids <$> t :: ts).
Proof. rewrite fmap_cons. simpl. intros w Hw. apply elem_of_app. by left. Qed.

Lemma wids_tail_subseteq t ts : mjoin (wids <$> ts) ⊆ mjoin (wids <$> t :: ts).
Proof. rewrite fmap_cons. simpl. intros w Hw. apply elem_of_app. by right. Qed.

Lemma wids_subtrees_subseteq w ts : mjoin (wids <$> ts) ⊆ wids (WT w ts).
Proof. rewrite wids_unfold. intros w' Hw'. by apply elem_of_cons; right. Qed.

Lemma wids_root w ts : w ∈ wids (WT w ts).
Proof. rewrite wids_unfold. by apply elem_of_cons; left. Qed.

Lemma for_of_stays_within names sf fuel ts :
  Forall (stays_within names sf) ts →
  ∀ it s,
    Forall (shape (nodes s)) ts →
    match for_of (root <$> ts) (pairNext (handleNode names fuel) sf) it s with
    | Normal _ s' | Throw _ s' => rebinds_within (mjoin (wids <$> ts)) s s'
    | Stuck => True
    end.
Proof.
  induction 1 as [|t ts Ht _ IH]; intros it s Hsh.
  { simpl. apply rebinds_within_refl. }
  inversion_clear Hsh as [|? ? Hsht Hshts].
  change (root <$> t :: ts) with (root t :: (root <$> ts)).
  rewrite for_of_cons, bind_run.
  assert (∃ v it', pairNext (handleNode names fuel) sf (root t) it s =
                   (handleNode names fuel (root t) v sf;; mret it') s) as (v & it' & ->).
  { destruct it as [|m it]; [by exists None, [] | by exists (Some m), it]. }
  rewrite bind_run.
  pose proof (Ht v fuel s Hsht) as Hstep.
  pose proof (handleNode_skeleton names fuel (root t) v sf s) as Hsk.
  destruct (handleNode names fuel (root t) v sf s) as [[] s1|e s1|]; [| |done].
  - simpl.
    assert (Forall (shape (nodes s1)) ts) as Hshts1.
    { apply (Forall_impl _ _ _ Hshts). intros t'. by apply shape_same_skeleton. }
    specialize (IH it' s1 Hshts1).
    apply (rebinds_within_mono _ _ _ _ (wids_head_subseteq t ts)) in Hstep.
    destruct (for_of _ _ it' s1) as [it2 s2|e s2|]; [| |done];
      (eapply rebinds_within_trans; [done|]);
      by apply (rebinds_within_mono _ _ _ _ (wids_tail_subseteq t ts)).
  - by apply (rebinds_within_mono _ _ _ _ (wids_head_subseteq t ts)).
Qed.

(** However a run on a wrapper tree ends, it has rebound wrappers of the
    tree only. *)
Lemma handleNode_stays_within names sf t : stays_within names sf t.
Proof.
  induction t as [w ts IH] using wtree_ind'. intros n fuel s Hsh.
  destruct fuel as [|fuel]; [done|].
  inversion Hsh as [? ? x Hw Hcs Hts]; subst. simpl root.
  destruct n as [n|]; [|rewrite (handleNode_undefined _ _ _ _ _ _ Hw);
                         apply rebinds_within_refl].
  destruct (decide (kind (compilerNode x) = kind n)) as [Hk|Hk];
    [|rewrite (handleNode_mismatch _ _ _ _ _ _ _ Hw Hk); apply rebinds_within_refl].
  rewrite (handleNode_match _ _ _ _ _ _ _ Hw Hk), bind_run.
  case_bool_decide as Hne.
  - rewrite (handleChildren_run _ _ _ _ _ _ Hw), Hcs, bind_run.
    pose proof (for_of_stays_within names sf fuel ts IH (children n) s Hts) as Hloop.
    pose proof (for_of_pairNext_skeleton names fuel sf (root <$> ts) (children n) s) as Hsk.
    destruct (for_of _ _ _ s) as [it s1|e s1|]; [| |done].
    + apply (rebinds_within_mono _ _ _ _ (wids_subtrees_subseteq w ts)) in Hloop.
      destruct (same_skeleton_lookup _ _ _ _ Hsk Hw) as (x1 & Hw1 & Hk1 & _).
      unfold noneLeftOver. destruct (negb _); simpl; [done|].
      rewrite (replaceCompilerNode_run _ _ _ _ Hw1) by congruence.
      eapply rebinds_within_trans; [done|].
      eapply rebinds_within_one; [done | apply wids_root].
    + by apply (rebinds_within_mono _ _ _ _ (wids_subtrees_subseteq w ts)).
  - simpl. rewrite (replaceCompilerNode_run _ _ _ _ Hw Hk).
    eapply rebinds_within_one; [done | apply wids_root].
Qed.

Lemma handleChildren_stays_within names sf fuel s w x ts n :
  nodes s !! w = Some x → wrappedChildren x = root <$> ts →
  Forall (shape (nodes s)) ts →
  match handleChildren (handleNode names fuel) w n sf s with
  | Normal _ s' | Throw _ s' => rebinds_within (mjoin (wids <$> ts)) s s'
  | Stuck => True
  end.
Proof.
  intros Hw Hcs Hts. rewrite (handleChildren_run _ _ _ _ _ _ Hw), Hcs, bind_run.
  pose proof (for_of_stays_within names sf fuel ts) as Hloop.
  specialize (Hloop (proj2 (Forall_forall _ _) (λ t _, handleNode_stays_within names sf t))
                    (children n) s Hts).
  destruct (for_of _ _ _ s) as [it s1|e s1|]; [| done..].
  unfold noneLeftOver. by destruct (negb _).
Qed.

(** ** The children of a wrapper tree *)

(** Child reconciliation that completes has paired every child with the
    new child at its position, and has rebound exactly their pairs. *)
Lemma handleChildren_normal names sf fuel s w x ts n s1 :
  nodes s !! w = Some x → wrappedChildren x = root <$> ts →
  Forall (shape (nodes s)) ts →
  handleChildren (handleNode names fuel) w n sf s = Normal tt s1 →
  Forall2 (pairable (nodes s)) ts (children n) ∧
  s1 = foldl rebind s (postorders ts (children n)).
Proof.
  intros Hw Hcs Hts Hrun.
  rewrite (handleChildren_run _ _ _ _ _ _ Hw), Hcs, bind_run in Hrun.
  destruct (for_of _ _ _ s) as [it s2| |] eqn:Hloop; [|done..].
  apply noneLeftOver_normal in Hrun as [-> ->].
  assert (Forall (runs_only_pairable names sf) ts) as Honly.
  { apply Forall_forall. intros t _. apply handleNode_normal_pairable. }
  assert (Forall (runs_pairable names sf) ts) as Hruns.
  { apply Forall_forall. intros t _. apply handleNode_pairable. }
  destruct (for_of_normal_pairable names sf fuel ts Honly _ _ _ _ Hts Hloop)
    as (ms & Hms & Hps & Hhs).
  rewrite app_nil_r in Hms. subst ms. split; [done|].
  pose proof (for_of_pairable_prefix names sf fuel ts Hruns (children n) [] s Hts Hps Hhs)
    as Hpre.
  rewrite app_nil_r, Hloop in Hpre. by injection Hpre.
Qed.

(** * The strategy on the sample documents *)

(** The reparse of the first document: the three wrappers are rebound,
    the block first and the source file last, and the node cache follows. *)
Example reconcile_sample :
  ∃ s', handleNode Sample.names 3 0 (Some Sample.newFile) Sample.newFile Sample.store
          = Normal tt s' ∧
        compilerNode <$> nodes s' !! 0 = Some Sample.newFile ∧
        compilerNode <$> nodes s' !! 1 = Some Sample.newFunction ∧
        compilerNode <$> nodes s' !! 2 = Some Sample.newBlock ∧
        nodeCache s' !! 202 = Some 2 ∧ nodeCache s' !! 102 = None ∧
        rebinds s' = [(2, Sample.newBlock); (1, Sample.newFunction); (0, Sample.newFile)].
Proof. eexists. split; [vm_compute; reflexivity|]. by vm_compute. Qed.

(** A budget below the height of the wrapper tree is not enough. *)
Example reconcile_sample_short_budget :
  handleNode Sample.names 2 0 (Some Sample.newFile) Sample.newFile Sample.store = Stuck.
Proof. by vm_compute. Qed.

(** A new node with fewer children than the wrapper tracks: the strategy
    is handed [undefined] and reading its kind raises. *)
Example reconcile_missing_child :
  ∃ s', handleNode Sample.names 3 0 (Some (TsNode 200 SyntaxKind.SourceFile []))
          Sample.newFile Sample.store = Throw TypeError s' ∧
        rebinds s' = [].
Proof. eexists. split; [vm_compute; reflexivity|]. done. Qed.

(** A wrapper without materialized children is rebound whatever the
    children of the new node: [handleChildren] does not run. *)
Example reconcile_leaf :
  ∃ s', handleNode Sample.names 1 2 (Some (TsNode 202 SyntaxKind.Block [Sample.newExtra]))
          Sample.newFile Sample.store = Normal tt s' ∧
        rebinds s' = [(2, TsNode 202 SyntaxKind.Block [Sample.newExtra])].
Proof. eexists. split; [vm_compute; reflexivity|]. done. Qed.

(** * The properties of the specification *)




(** C2 — Kind mismatch fails closed.  When the kind of the wrapper
    differs from the kind of the new node, [handleNode] raises an
    [InvalidOperationError] whose message carries the names of both
    kinds, and leaves the store as it found it: no wrapper is rebound,
    the node cache and the history of rebinds are unchanged, so neither
    [handleChildren] nor [replaceCompilerNode] has run.  The outcome does
    not depend on the budget, nor on the children. *)
Theorem kind_mismatch_fails_closed names fuel w n sf s x :
  nodes s !! w = Some x → kind (compilerNode x) ≠ kind n →
  ∃ message,
    handleNode names (S fuel) w (Some n) sf s =
      Throw (InvalidOperationError message) s ∧
    message = replacingTreeMessage (names (kind (compilerNode x))) (names (kind n)) ∧
    ∃ before between after,
      message = (before +:+ names (kind (compilerNode x)) +:+ between +:+
                 names (kind n) +:+ after)%string.
Proof.
  intros Hw Hk. eexists. split; [by apply handleNode_mismatch|]. split; [done|].
  by exists "Error replacing tree! Perhaps a syntax error was inserted (Current: "%string,
            " -- New: "%string, ")."%string.
Qed.

Lemma kind_mismatch_fails_closed_witness :
  ∃ message,
    handleNode Sample.names 1 2 (Some Sample.newEnum) Sample.newFile2 Sample.store2 =
      Throw (InvalidOperationError message) Sample.store2 ∧
    message = replacingTreeMessage "ClassDeclaration" "EnumDeclaration" ∧
    ∃ before between after,
      message = (before +:+ "ClassDeclaration" +:+ between +:+
                 "EnumDeclaration" +:+ after)%string.
Proof.
  apply (kind_mismatch_fails_closed Sample.names 0 2 Sample.newEnum Sample.newFile2
           Sample.store2 (mkNode Sample.oldClass [])).
  - reflexivity.
  - simpl. discriminate.
Defined.

(** C3 — Positional pairing and rebinding correctness.  Whatever the
    strategy [this] it dispatches to, [handleChildren] hands the tracked
    child at position [i] to the strategy with the element at position
    [i] of the new node's children, one new child per wrapper child, and
    then checks that no new child is left.  Consequently, after a
    reconciliation of a wrapper tree that completes, the wrapper at a
    path of the wrapper tree is bound to the node at the same path of the
    new tree, and the rebinds were those pairs, children before their
    parent; when the nodes of the new tree are fresh objects, the node
    cache maps each of them to the wrapper at its path. *)
Theorem rebinding_correctness names sf t n fuel s s' :
  shape (nodes s) t → NoDup (wids t) →
  handleNode names fuel (root t) (Some n) sf s = Normal tt s' →
  (∀ (this : NodeHandler) s0 x,
     nodes s0 !! root t = Some x →
     handleChildren this (root t) n sf s0 =
     (dispatchFrom this sf (children n) 0 (wrappedChildren x);;
      if bool_decide (length (wrappedChildren x) < length (children n))
      then throw (Error leftOverMessage)
      else mret tt) s0) ∧
  (∀ path w, wnode_at t path = Some w →
     ∃ m x, tnode_at n path = Some m ∧ nodes s' !! w = Some x ∧ compilerNode x = m) ∧
  rebinds s' = rebinds s ++ postorder t n ∧
  (fresh_pairs s (postorder t n) →
   ∀ path w m, wnode_at t path = Some w → tnode_at n path = Some m →
               nodeCache s' !! nid m = Some w).
Proof.
  intros Hsh Hnd Hrun. split; [|split; [|split]].
  - intros this s0 x Hx. by apply handleChildren_positional.
  - intros path w Hw.
    destruct (handleNode_normal names sf t n fuel s s' Hsh Hrun) as [Hp ->].
    destruct (pairable_at_path _ t n path w Hp Hw) as [m Hm].
    pose proof (postorder_at_path t n path w m Hw Hm) as Hin.
    assert (w ∈ (postorder t n).*1) as Hin1.
    { apply list_elem_of_fmap. by exists (w, m). }
    destruct (postorder_dom _ t n w Hsh Hin1) as [x Hx].
    exists m, (mkNode m (wrappedChildren x)). split_and!; [done| |done].
    eapply foldl_rebind_bound; [|done..].
    eapply submseteq_NoDup; [apply postorder_wids | done].
  - destruct (handleNode_normal names sf t n fuel s s' Hsh Hrun) as [Hp ->].
    apply foldl_rebind_rebinds. intros w Hw. by apply (postorder_dom _ t n).
  - intros Hfresh path w m Hw Hm.
    destruct (handleNode_normal names sf t n fuel s s' Hsh Hrun) as [Hp ->].
    apply foldl_rebind_cache; [|done| |by apply (postorder_at_path t n path)].
    + eapply submseteq_NoDup; [apply postorder_wids | done].
    + intros w' Hw'. by apply (postorder_dom _ t n).
Qed.

Lemma rebinding_correctness_witness :
  let s' := foldl rebind Sample.store (postorder Sample.tree Sample.newFile) in
  (∀ (this : NodeHandler) s0 x,
     nodes s0 !! 0 = Some x →
     handleChildren this 0 Sample.newFile Sample.newFile s0 =
     (dispatchFrom this Sample.newFile [Sample.newFunction] 0 (wrappedChildren x);;
      if bool_decide (length (wrappedChildren x) < 1)
      then throw (Error leftOverMessage)
      else mret tt) s0) ∧
  (∀ path w, wnode_at Sample.tree path = Some w →
     ∃ m x, tnode_at Sample.newFile path = Some m ∧
            nodes s' !! w = Some x ∧ compilerNode x = m) ∧
  rebinds s' = [(2, Sample.newBlock); (1, Sample.newFunction); (0, Sample.newFile)] ∧
  (fresh_pairs Sample.store (postorder Sample.tree Sample.newFile) →
   ∀ path w m, wnode_at Sample.tree path = Some w →
               tnode_at Sample.newFile path = Some m →
               nodeCache s' !! nid m = Some w).
Proof.
  apply (rebinding_correctness Sample.names Sample.newFile Sample.tree Sample.newFile
           3 Sample.store).
  - solve_shape.
  - apply (bool_decide_unpack _). vm_compute. exact I.
  - vm_compute. reflexivity.
Defined.

(** C4 — Children before the parent.  When the wrapper has materialized
    children, [handleNode] runs [handleChildren] first: if that
    completes, the parent is rebound in the store the children left, as
    the last rebind of the history; if it raises, [handleNode] raises
    with it and the parent is not rebound.  In a wrapper tree the parent
    is still bound to its old node when its children are done, however
    they end.  When the wrapper has no
    materialized children, the rebind of the wrapper is the only thing
    that happens. *)
Theorem children_before_rebind names fuel w n sf s x :
  nodes s !! w = Some x → kind (compilerNode x) = kind n →
  (wrappedChildren x ≠ [] →
     match handleChildren (handleNode names fuel) w n sf s with
     | Normal _ s1 =>
         handleNode names (S fuel) w (Some n) sf s = Normal tt (rebind s1 (w, n)) ∧
         (∃ ps, rebinds s1 = rebinds s ++ ps ∧
                rebinds (rebind s1 (w, n)) = rebinds s ++ ps ++ [(w, n)]) ∧
         (∀ ts, wrappedChildren x = root <$> ts → Forall (shape (nodes s)) ts →
                NoDup (wids (WT w ts)) → nodes s1 !! w = Some x)
     | Throw e s1 =>
         handleNode names (S fuel) w (Some n) sf s = Throw e s1 ∧
         (∀ ts, wrappedChildren x = root <$> ts → Forall (shape (nodes s)) ts →
                NoDup (wids (WT w ts)) → nodes s1 !! w = Some x)
     | Stuck => handleNode names (S fuel) w (Some n) sf s = Stuck
     end) ∧
  (wrappedChildren x = [] →
     handleNode names (S fuel) w (Some n) sf s = Normal tt (rebind s (w, n)) ∧
     rebinds (rebind s (w, n)) = rebinds s ++ [(w, n)]).
Proof.
  intros Hw Hk. rewrite (handleNode_match _ _ _ _ _ _ _ Hw Hk), bind_run. split.
  - intros Hne. rewrite bool_decide_true by done.
    pose proof (handleChildren_history names fuel w n sf s) as Hhist.
    pose proof (preserves_handleChildren same_skeleton (handleNode names fuel) w n sf
                  (λ c v, handleNode_skeleton names fuel c v sf) s) as Hsk.
    assert (∀ s1 ts,
              match handleChildren (handleNode names fuel) w n sf s with
              | Normal _ s' | Throw _ s' => s' = s1
              | Stuck => False
              end →
              wrappedChildren x = root <$> ts → Forall (shape (nodes s)) ts →
              NoDup (wids (WT w ts)) → nodes s1 !! w = Some x) as Hparent.
    { intros s1 ts Hs1 Hcs Hts Hnd.
      pose proof (handleChildren_stays_within names sf fuel s w x ts n Hw Hcs Hts) as Hin.
      rewrite wids_unfold in Hnd. apply NoDup_cons in Hnd as [Hnotin _].
      destruct (handleChildren _ w n sf s) as [[] s'|e s'|]; [| |done]; subst s';
        by rewrite (rebinds_within_frame _ _ _ _ Hin Hnotin). }
    destruct (handleChildren _ w n sf s) as [[] s1|e s1|] eqn:Hrun; [| |done].
    2: { split; [done|]. intros ts. by apply Hparent. }
    destruct (same_skeleton_lookup _ _ _ _ Hsk Hw) as (x1 & Hw1 & Hk1 & _).
    destruct Hhist as (ps & _ & Hps). split_and!.
    + apply (replaceCompilerNode_run _ _ _ _ Hw1). congruence.
    + exists ps. split; [done|]. unfold rebind. simpl. rewrite Hw1. simpl.
      by rewrite Hps, <- app_assoc.
    + intros ts. by apply Hparent.
  - intros Hnil. rewrite bool_decide_false by (by intros []).
    simpl. split; [by apply (replaceCompilerNode_run _ _ _ _ Hw)|].
    unfold rebind. simpl. by rewrite Hw.
Qed.

Lemma children_before_rebind_witness :
  (wrappedChildren (mkNode Sample.oldFile [1]) ≠ [] →
     match handleChildren (handleNode Sample.names 2) 0 Sample.newFile Sample.newFile
             Sample.store with
     | Normal _ s1 =>
         handleNode Sample.names 3 0 (Some Sample.newFile) Sample.newFile Sample.store
           = Normal tt (rebind s1 (0, Sample.newFile)) ∧
         (∃ ps, rebinds s1 = rebinds Sample.store ++ ps ∧
                rebinds (rebind s1 (0, Sample.newFile)) =
                  rebinds Sample.store ++ ps ++ [(0, Sample.newFile)]) ∧
         (∀ ts, wrappedChildren (mkNode Sample.oldFile [1]) = root <$> ts →
                Forall (shape (nodes Sample.store)) ts →
                NoDup (wids (WT 0 ts)) →
                nodes s1 !! 0 = Some (mkNode Sample.oldFile [1]))
     | Throw e s1 =>
         handleNode Sample.names 3 0 (Some Sample.newFile) Sample.newFile Sample.store
           = Throw e s1 ∧
         (∀ ts, wrappedChildren (mkNode Sample.oldFile [1]) = root <$> ts →
                Forall (shape (nodes Sample.store)) ts →
                NoDup (wids (WT 0 ts)) →
                nodes s1 !! 0 = Some (mkNode Sample.oldFile [1]))
     | Stuck =>
         handleNode Sample.names 3 0 (Some Sample.newFile) Sample.newFile Sample.store
           = Stuck
     end) ∧
  (wrappedChildren (mkNode Sample.oldFile [1]) = [] →
     handleNode Sample.names 3 0 (Some Sample.newFile) Sample.newFile Sample.store
       = Normal tt (rebind Sample.store (0, Sample.newFile)) ∧
     rebinds (rebind Sample.store (0, Sample.newFile)) =
       rebinds Sample.store ++ [(0, Sample.newFile)]).
Proof.
  apply (children_before_rebind Sample.names 2 0 Sample.newFile Sample.newFile
           Sample.store (mkNode Sample.oldFile [1])).
  - reflexivity.
  - reflexivity.
Defined.

Lemma postorders_subnodes ts ns : (postorders ts ns).*2 ⊆+ mjoin (subnodes <$> ns).
Proof.
  revert ns. induction ts as [|t ts IH]; intros ns.
  { rewrite postorders_nil_l. apply submseteq_nil_l. }
  destruct ns as [|m ns]; [rewrite postorders_nil_r; apply submseteq_nil_l|].
  rewrite postorders_cons, fmap_app, fmap_cons. simpl.
  apply submseteq_app; [apply postorder_subnodes | apply IH].
Qed.

(** After a sequence of rebinds a wrapper is bound as before, or to the
    node of one of the pairs. *)
Lemma foldl_rebind_lookup ps s w x' :
  nodes (foldl rebind s ps) !! w = Some x' →
  nodes s !! w = Some x' ∨ compilerNode x' ∈ ps.*2.
Proof.
  intros Hx'. destruct (decide (w ∈ ps.*1)) as [Hin|Hin].
  - right. destruct (foldl_rebind_rebound ps s w Hin) as (x & m & Hx & Hm & Hin').
    + pose proof (foldl_rebind_children ps s w) as Hc. rewrite Hx' in Hc.
      by destruct (nodes s !! w).
    + rewrite Hx in Hx'. injection Hx' as <-. subst m.
      apply list_elem_of_fmap. by exists (w, compilerNode x).
  - left. by rewrite foldl_rebind_frame in Hx'.
Qed.

Lemma foldl_rebind_dom ps s : dom (nodes (foldl rebind s ps)) = dom (nodes s).
Proof.
  apply set_eq. intros w. rewrite !elem_of_dom.
  pose proof (foldl_rebind_children ps s w) as Hc.
  destruct (nodes s !! w) as [x|], (nodes (foldl rebind s ps) !! w) as [x'|];
    simpl in Hc; try done; split; eauto.
Qed.

(** C5 — Unpaired children fail closed.  When the new node has more
    children than the wrapper tracks, [handleChildren] dispatches the
    tracked children, each with the new child at its position, and then
    raises the [Error] of the left-over check.  With the straight
    strategy on children that line up with their partners, the raise
    leaves the rebinds of those pairs and nothing else: no wrapper object
    is created, and every wrapper is bound as before or to a node of the
    paired children, never to a surplus child.  [handleNode] propagates
    the raise and does not rebind the parent. *)
Theorem unpaired_children_fail_closed names sf fuel s w x ts n ms extra :
  nodes s !! w = Some x → wrappedChildren x = root <$> ts →
  Forall (shape (nodes s)) ts →
  children n = ms ++ extra → extra ≠ [] →
  Forall2 (pairable (nodes s)) ts ms → Forall (λ t, height t ≤ fuel) ts →
  (∀ this : NodeHandler,
     handleChildren this w n sf s =
     (dispatchFrom this sf (children n) 0 (wrappedChildren x);;
      throw (Error leftOverMessage)) s) ∧
  ∃ s1,
    handleChildren (handleNode names fuel) w n sf s = Throw (Error leftOverMessage) s1 ∧
    s1 = foldl rebind s (postorders ts ms) ∧
    rebinds s1 = rebinds s ++ postorders ts ms ∧
    dom (nodes s1) = dom (nodes s) ∧
    (∀ w' x', nodes s1 !! w' = Some x' →
       nodes s !! w' = Some x' ∨ compilerNode x' ∈ mjoin (subnodes <$> ms)) ∧
    (ts ≠ [] → kind (compilerNode x) = kind n →
       handleNode names (S fuel) w (Some n) sf s = Throw (Error leftOverMessage) s1).
Proof.
  intros Hw Hcs Hts Hn Hextra Hps Hhs.
  assert (length (wrappedChildren x) < length (children n)) as Hlen.
  { rewrite Hcs, Hn, length_fmap, length_app, (Forall2_length _ _ _ Hps).
    destruct extra; [done|]. simpl. lia. }
  assert (handleChildren (handleNode names fuel) w n sf s =
          Throw (Error leftOverMessage) (foldl rebind s (postorders ts ms))) as Hrun.
  { rewrite (handleChildren_run _ _ _ _ _ _ Hw), Hcs, Hn, bind_run.
    rewrite (for_of_pairable_prefix names sf fuel ts); [|
      apply Forall_forall; intros t _; apply handleNode_pairable | done..].
    by destruct extra. }
  split.
  - intros this. rewrite (handleChildren_positional _ _ _ _ _ _ Hw).
    by rewrite bool_decide_true.
  - eexists. split_and!; [done | done | | | |].
    + apply foldl_rebind_rebinds. intros w' Hw'. apply (shapes_wids_dom _ ts); [done|].
      eapply elem_of_submseteq; [done | apply postorders_wids].
    + apply foldl_rebind_dom.
    + intros w' x' Hx'. destruct (foldl_rebind_lookup _ _ _ _ Hx') as [?|Hin]; [by left|].
      right. eapply elem_of_submseteq; [done | apply postorders_subnodes].
    + intros Hne Hk. rewrite (handleNode_match _ _ _ _ _ _ _ Hw Hk), bind_run.
      rewrite bool_decide_true; [by rewrite Hrun|].
      rewrite Hcs. by destruct ts.
Qed.

Lemma unpaired_children_fail_closed_witness :
  (∀ this : NodeHandler,
     handleChildren this 0 Sample.newFile3 Sample.newFile Sample.store =
     (dispatchFrom this Sample.newFile (children Sample.newFile3) 0 [1];;
      throw (Error leftOverMessage)) Sample.store) ∧
  ∃ s1,
    handleChildren (handleNode Sample.names 2) 0 Sample.newFile3 Sample.newFile
      Sample.store = Throw (Error leftOverMessage) s1 ∧
    s1 = foldl rebind Sample.store (postorders [WT 1 [WT 2 []]] [Sample.newFunction]) ∧
    rebinds s1 = rebinds Sample.store ++
                 postorders [WT 1 [WT 2 []]] [Sample.newFunction] ∧
    dom (nodes s1) = dom (nodes Sample.store) ∧
    (∀ w' x', nodes s1 !! w' = Some x' →
       nodes Sample.store !! w' = Some x' ∨
       compilerNode x' ∈ mjoin (subnodes <$> [Sample.newFunction])) ∧
    ([WT 1 [WT 2 []]] ≠ [] →
     kind (compilerNode (mkNode Sample.oldFile [1])) = kind Sample.newFile3 →
     handleNode Sample.names 3 0 (Some Sample.newFile3) Sample.newFile Sample.store
       = Throw (Error leftOverMessage) s1).
Proof.
  apply (unpaired_children_fail_closed Sample.names Sample.newFile 2 Sample.store 0
           (mkNode Sample.oldFile [1]) [WT 1 [WT 2 []]] Sample.newFile3
           [Sample.newFunction] [Sample.newExtra]).
  - reflexivity.
  - reflexivity.
  - solve_shape.
  - reflexivity.
  - discriminate.
  - solve_pairable.
  - repeat constructor; simpl; lia.
Defined.

(** Every wrapper under children that line up with their partners is in
    a pair. *)
Lemma postorders_paired h pre ms w' :
  Forall2 (pairable h) pre ms → w' ∈ mjoin (wids <$> pre) →
  ∃ m', (w', m') ∈ postorders pre ms.
Proof.
  intros Hps (l & Hw' & Hl)%list_elem_of_join.
  apply list_elem_of_fmap in Hl as (t & -> & Ht).
  apply list_elem_of_lookup in Ht as [i Hi].
  destruct (Forall2_lookup_l _ _ _ _ _ Hps Hi) as (mi & Hmi & Hp).
  destruct (wids_at_path t w' Hw') as [path Hpath].
  destruct (pairable_at_path _ t mi path w' Hp Hpath) as [m' Hm'].
  exists m'. apply elem_of_postorders. exists i, t, mi. split_and!; [done..|].
  by apply (postorder_at_path t mi path).
Qed.

(** The loop of [handleChildren] on children of which a prefix lines up
    and the next one is of another kind than its partner. *)
Lemma handleChildren_mismatch names sf fuel s w x n pre c post ms m rest xc :
  nodes s !! w = Some x →
  wrappedChildren x = root <$> (pre ++ c :: post) →
  children n = ms ++ m :: rest →
  Forall (shape (nodes s)) pre →
  Forall2 (pairable (nodes s)) pre ms →
  Forall (λ t, height t ≤ S fuel) pre →
  nodes s !! root c = Some xc → kind (compilerNode xc) ≠ kind m →
  handleChildren (handleNode names (S fuel)) w n sf s =
    handleNode names (S fuel) (root c) (Some m) sf (foldl rebind s (postorders pre ms)) ∧
  handleNode names (S fuel) (root c) (Some m) sf (foldl rebind s (postorders pre ms)) =
    Throw (InvalidOperationError
             (replacingTreeMessage (names (kind (compilerNode xc))) (names (kind m))))
          (foldl rebind s (postorders pre ms)).
Proof.
  intros Hw Hcs Hn Hsh Hps Hhs Hxc Hk.
  pose proof (for_of_pairable_prefix names sf (S fuel) pre) as Hpre.
  specialize (Hpre (proj2 (Forall_forall _ _) (λ t _, handleNode_pairable names sf t))
                   ms (m :: rest) s Hsh Hps Hhs).
  pose proof (for_of_pairNext_skeleton names (S fuel) sf (root <$> pre) (ms ++ m :: rest) s)
    as Hsk.
  rewrite Hpre in Hsk.
  destruct (same_skeleton_lookup _ _ _ _ Hsk Hxc) as (xc' & Hxc' & Hkc' & _).
  assert (handleNode names (S fuel) (root c) (Some m) sf
            (foldl rebind s (postorders pre ms)) =
          Throw (InvalidOperationError
                   (replacingTreeMessage (names (kind (compilerNode xc))) (names (kind m))))
                (foldl rebind s (postorders pre ms))) as Hthrow.
  { rewrite <- Hkc'. apply handleNode_mismatch; [done|congruence]. }
  split; [|done].
  rewrite (handleChildren_run _ _ _ _ _ _ Hw), Hcs, Hn, fmap_app, bind_run.
  rewrite for_of_app, bind_run, Hpre.
  cbv beta iota. rewrite fmap_cons, for_of_cons, bind_run, pairNext_some, bind_run.
  by rewrite Hthrow.
Qed.

(** C6 — No rollback.  A pass that raises at the pair of a child, because
    the child is of another kind than the new child at its position,
    leaves in place what it had completed: every wrapper under the
    children before it is bound to its partner in the new tree and
    registered under it; the history holds those rebinds; the parent, the
    failed child, the children after it and all their descendants are
    bound as before, and the node cache keeps every entry whose key the
    completed rebinds neither inserted nor removed.  In general, the
    store a raising run on a wrapper tree ends in is the store it started
    from with the rebinds it performed applied in order, all of them
    rebinds of wrappers of the tree; wrappers outside the tree are bound
    as before. *)
Theorem no_rollback names sf fuel s w x n pre c post ms m rest xc :
  nodes s !! w = Some x → kind (compilerNode x) = kind n →
  wrappedChildren x = root <$> (pre ++ c :: post) →
  children n = ms ++ m :: rest →
  Forall (shape (nodes s)) (pre ++ c :: post) →
  NoDup (wids (WT w (pre ++ c :: post))) →
  Forall2 (pairable (nodes s)) pre ms →
  Forall (λ t, height t ≤ S fuel) pre →
  nodes s !! root c = Some xc → kind (compilerNode xc) ≠ kind m →
  fresh_pairs s (postorders pre ms) →
  ∃ s',
    handleNode names (S (S fuel)) w (Some n) sf s =
      Throw (InvalidOperationError
               (replacingTreeMessage (names (kind (compilerNode xc))) (names (kind m))))
            s' ∧
    s' = foldl rebind s (postorders pre ms) ∧
    rebinds s' = rebinds s ++ postorders pre ms ∧
    (∀ w', w' ∈ mjoin (wids <$> pre) →
       ∃ m' x', (w', m') ∈ postorders pre ms ∧
                nodes s' !! w' = Some x' ∧ compilerNode x' = m' ∧
                nodeCache s' !! nid m' = Some w') ∧
    (∀ w', w' = w ∨ w' ∈ mjoin (wids <$> c :: post) →
       nodes s' !! w' = nodes s !! w') ∧
    (∀ k, (∀ m', m' ∈ (postorders pre ms).*2 → nid m' ≠ k) →
          (∀ w' x', w' ∈ (postorders pre ms).*1 → nodes s !! w' = Some x' →
                    nid (compilerNode x') ≠ k) →
          nodeCache s' !! k = nodeCache s !! k) ∧
    (∀ t fuel' n' s1 e s2,
       shape (nodes s1) t →
       handleNode names fuel' (root t) n' sf s1 = Throw e s2 →
       rebinds_within (wids t) s1 s2 ∧
       ∀ w', w' ∉ wids t → nodes s2 !! w' = nodes s1 !! w').
Proof.
  intros Hw Hk Hcs Hn Hsh Hnd Hps Hhs Hxc Hkc Hfresh.
  apply Forall_app in Hsh as [Hshpre Hshrest].
  rewrite wids_unfold, fmap_app, join_app in Hnd.
  apply NoDup_cons in Hnd as [Hwnot Hnd].
  apply NoDup_app in Hnd as (Hndpre & Hdisj & Hndrest).
  assert ((postorders pre ms).*1 ⊆+ mjoin (wids <$> pre)) as Hsub
    by apply postorders_wids.
  assert (NoDup (postorders pre ms).*1) as Hndps by by eapply submseteq_NoDup.
  assert (∀ w', w' ∈ (postorders pre ms).*1 → is_Some (nodes s !! w')) as Hdom.
  { intros w' Hw'. apply (shapes_wids_dom _ pre); [done|].
    by eapply elem_of_submseteq. }
  assert (∀ w', w' = w ∨ w' ∈ mjoin (wids <$> c :: post) →
                w' ∉ (postorders pre ms).*1) as Hout.
  { intros w' Hw' Hin. pose proof (elem_of_submseteq _ _ _ Hin Hsub) as Hin'.
    destruct Hw' as [->|Hw'].
    - apply Hwnot. apply elem_of_app. by left.
    - by apply (Hdisj w'). }
  assert (root c ∈ mjoin (wids <$> c :: post)) as Hrootc.
  { rewrite fmap_cons. simpl. apply elem_of_app. left.
    destruct c as [wc tsc]. rewrite wids_unfold. by apply elem_of_cons; left. }
  exists (foldl rebind s (postorders pre ms)). split_and!.
  - rewrite (handleNode_match _ _ _ _ _ _ _ Hw Hk), bind_run.
    rewrite bool_decide_true by (rewrite Hcs; by destruct pre).
    destruct (handleChildren_mismatch names sf fuel s w x n pre c post ms m rest xc)
      as [-> ->]; done.
  - done.
  - by apply foldl_rebind_rebinds.
  - intros w' Hw'.
    destruct (postorders_paired _ pre ms w' Hps Hw') as [m' Hin].
    assert (w' ∈ (postorders pre ms).*1) as Hin1.
    { apply list_elem_of_fmap. by exists (w', m'). }
    destruct (Hdom w' Hin1) as [x0 Hx0].
    exists m', (mkNode m' (wrappedChildren x0)). split_and!; [done| |done|].
    + by eapply foldl_rebind_bound.
    + by apply foldl_rebind_cache.
  - intros w' Hw'. apply foldl_rebind_frame. by apply Hout.
  - intros k Hnew Hold. by apply foldl_rebind_cache_frame.
  - intros t fuel' n' s1 e s2 Hsht Hrun.
    pose proof (handleNode_stays_within names sf t n' fuel' s1 Hsht) as Hin.
    rewrite Hrun in Hin. split; [done|].
    intros w' Hw'. by apply (rebinds_within_frame (wids t)).
Qed.

Lemma no_rollback_witness :
  ∃ s',
    handleNode Sample.names 2 0 (Some Sample.newFile2) Sample.newFile2 Sample.store2 =
      Throw (InvalidOperationError
               (replacingTreeMessage "ClassDeclaration" "EnumDeclaration")) s' ∧
    s' = foldl rebind Sample.store2 (postorders [WT 1 []] [Sample.newFunction2]) ∧
    rebinds s' = rebinds Sample.store2 ++ postorders [WT 1 []] [Sample.newFunction2] ∧
    (∀ w', w' ∈ mjoin (wids <$> [WT 1 []]) →
       ∃ m' x', (w', m') ∈ postorders [WT 1 []] [Sample.newFunction2] ∧
                nodes s' !! w' = Some x' ∧ compilerNode x' = m' ∧
                nodeCache s' !! nid m' = Some w') ∧
    (∀ w', w' = 0 ∨ w' ∈ mjoin (wids <$> [WT 2 []]) →
       nodes s' !! w' = nodes Sample.store2 !! w') ∧
    (∀ k, (∀ m', m' ∈ (postorders [WT 1 []] [Sample.newFunction2]).*2 → nid m' ≠ k) →
          (∀ w' x', w' ∈ (postorders [WT 1 []] [Sample.newFunction2]).*1 →
                    nodes Sample.store2 !! w' = Some x' →
                    nid (compilerNode x') ≠ k) →
          nodeCache s' !! k = nodeCache Sample.store2 !! k) ∧
    (∀ t fuel' n' s1 e s2,
       shape (nodes s1) t →
       handleNode Sample.names fuel' (root t) n' Sample.newFile2 s1 = Throw e s2 →
       rebinds_within (wids t) s1 s2 ∧
       ∀ w', w' ∉ wids t → nodes s2 !! w' = nodes s1 !! w').
Proof.
  apply (no_rollback Sample.names Sample.newFile2 0 Sample.store2 0
           (mkNode Sample.oldFile2 [1; 2]) Sample.newFile2
           [WT 1 []] (WT 2 []) [] [Sample.newFunction2] Sample.newEnum []
           (mkNode Sample.oldClass [])).
  - reflexivity.
  - reflexivity.
  - reflexivity.
  - reflexivity.
  - solve_shape.
  - apply (bool_decide_unpack _). vm_compute. exact I.
  - solve_pairable.
  - repeat constructor; simpl; lia.
  - reflexivity.
  - simpl. discriminate.
  - split.
    + apply (bool_decide_unpack _). vm_compute. exact I.
    + intros w x n Hw Hx Hn. vm_compute in Hw, Hn.
      apply list_elem_of_singleton in Hw as ->.
      apply list_elem_of_singleton in Hn as ->.
      vm_compute in Hx. injection Hx as <-. simpl. discriminate.
Defined.

Lemma dispatchFrom_accept sf ns cs : ∀ i s,
  dispatchFrom (λ _ _ _, mret tt) sf ns i cs s = Normal tt s.
Proof. induction cs as [|c cs IH]; intros i s; [done|]. apply (IH (S i) s). Qed.

(** C7 — No kind check in the pairing loop.  [handleChildren] itself
    compares no kinds: with a strategy that accepts every pair it
    completes, or raises the left-over [Error], by the counts alone,
    also when a tracked child is of another kind than the new child at
    its position.  With the straight strategy such a pair is dispatched
    like any other, and the raise of [handleChildren] is the raise of
    the dispatched [handleNode]: the [InvalidOperationError] of its
    precondition, with the names of the two kinds. *)
Theorem no_kind_check_before_dispatch names sf fuel s w x n pre c post ms m rest xc :
  nodes s !! w = Some x →
  wrappedChildren x = root <$> (pre ++ c :: post) →
  children n = ms ++ m :: rest →
  Forall (shape (nodes s)) pre →
  Forall2 (pairable (nodes s)) pre ms →
  Forall (λ t, height t ≤ S fuel) pre →
  nodes s !! root c = Some xc → kind (compilerNode xc) ≠ kind m →
  handleChildren (λ _ _ _, mret tt) w n sf s =
    (if bool_decide (length (wrappedChildren x) < length (children n))
     then Throw (Error leftOverMessage) s
     else Normal tt s) ∧
  handleChildren (handleNode names (S fuel)) w n sf s =
    handleNode names (S fuel) (root c) (Some m) sf (foldl rebind s (postorders pre ms)) ∧
  handleNode names (S fuel) (root c) (Some m) sf (foldl rebind s (postorders pre ms)) =
    Throw (InvalidOperationError
             (replacingTreeMessage (names (kind (compilerNode xc))) (names (kind m))))
          (foldl rebind s (postorders pre ms)).
Proof.
  intros Hw Hcs Hn Hsh Hps Hhs Hxc Hk. split.
  - rewrite (handleChildren_positional _ _ _ _ _ _ Hw), bind_run, dispatchFrom_accept.
    by case_bool_decide.
  - by apply (handleChildren_mismatch names sf fuel s w x n pre c post ms m rest xc).
Qed.

Lemma no_kind_check_before_dispatch_witness :
  handleChildren (λ _ _ _, mret tt) 0 Sample.newFile2 Sample.newFile2 Sample.store2 =
    (if bool_decide (length [1; 2] < length (children Sample.newFile2))
     then Throw (Error leftOverMessage) Sample.store2
     else Normal tt Sample.store2) ∧
  handleChildren (handleNode Sample.names 1) 0 Sample.newFile2 Sample.newFile2
      Sample.store2 =
    handleNode Sample.names 1 2 (Some Sample.newEnum) Sample.newFile2
      (foldl rebind Sample.store2 (postorders [WT 1 []] [Sample.newFunction2])) ∧
  handleNode Sample.names 1 2 (Some Sample.newEnum) Sample.newFile2
      (foldl rebind Sample.store2 (postorders [WT 1 []] [Sample.newFunction2])) =
    Throw (InvalidOperationError
             (replacingTreeMessage "ClassDeclaration" "EnumDeclaration"))
          (foldl rebind Sample.store2 (postorders [WT 1 []] [Sample.newFunction2])).
Proof.
  apply (no_kind_check_before_dispatch Sample.names Sample.newFile2 0 Sample.store2 0
           (mkNode Sample.oldFile2 [1; 2]) Sample.newFile2
           [WT 1 []] (WT 2 []) [] [Sample.newFunction2] Sample.newEnum []
           (mkNode Sample.oldClass [])).
  - reflexivity.
  - reflexivity.
  - reflexivity.
  - solve_shape.
  - solve_pairable.
  - repeat constructor; simpl; lia.
  - reflexivity.
  - simpl. discriminate.
Defined.

(** * The registry's wrap *)

Lemma getNodeFromCompilerNode_live hasFacade n s w s' :
  cache_sound s →
  getNodeFromCompilerNode hasFacade n s = Normal w s' →
  registered s' w n ∧ cache_sound s'.
Proof.
  intros Hsound. unfold getNodeFromCompilerNode.
  destruct (nodeCache s !! nid n) as [w0|] eqn:Hc.
  - intros [= <- <-]. split; [|done]. split; [done|]. by apply Hsound.
  - destruct (hasFacade (kind n)); [|done]. intros [= <- <-].
    set (w := fresh (dom (nodes s))).
    assert (nodes s !! w = None) as Hw by apply not_elem_of_dom, is_fresh.
    split.
    + split; simpl; by rewrite lookup_insert_eq.
    + intros k w'. simpl. destruct (decide (nid n = k)) as [<-|Hne].
      * rewrite lookup_insert_eq. intros [= <-]. by rewrite lookup_insert_eq.
      * rewrite lookup_insert_ne by done. intros Hk.
        pose proof (Hsound k w' Hk) as Hx. simpl in Hx.
        rewrite lookup_insert_ne; [done|]. intros <-. by rewrite Hw in Hx.
Qed.

Lemma getNodeFromCompilerNode_registered hasFacade n s :
  cache_sound s → hasFacade (kind n) = true →
  ∃ w s', getNodeFromCompilerNode hasFacade n s = Normal w s' ∧ registered s' w n.
Proof.
  intros Hsound Hf.
  assert (∃ w s', getNodeFromCompilerNode hasFacade n s = Normal w s') as (w & s' & Hrun).
  { unfold getNodeFromCompilerNode. destruct (nodeCache s !! nid n); [by eauto|].
    rewrite Hf. by eauto. }
  exists w, s'. split; [done|]. by eapply getNodeFromCompilerNode_live.
Qed.

Lemma registered_live s w n : registered s w n → is_Some (nodes s !! w).
Proof. intros [_ Hx]. by destruct (nodes s !! w). Qed.

(** C8 — [getBody].  For a source file it returns the wrapper itself;
    for a namespace declaration, and for a function declaration that
    has a body, what it returns is the wrapper the registry holds for
    the body node, and it does return when the registry has a facade
    type for the kind of the body; for a function declaration without a
    body it raises the [NotImplementedError] of the missing body, and for
    every other kind of node the not-implemented error of the node.
    What it returns is always a wrapper of the store, never
    [undefined]. *)
Theorem getBody_cases hasFacade notImplementedMessage this s :
  cache_sound s → is_Some (nodes s !! StatementedNode.self this) →
  match StatementedNode.node this with
  | StatementedNode.SourceFile =>
      StatementedNode.getBody hasFacade notImplementedMessage this s =
      Normal (StatementedNode.self this) s
  | StatementedNode.ModuleDeclaration b
  | StatementedNode.FunctionDeclaration (Some b) =>
      StatementedNode.getBody hasFacade notImplementedMessage this s =
        getNodeFromCompilerNode hasFacade b s ∧
      (∀ w s', StatementedNode.getBody hasFacade notImplementedMessage this s = Normal w s' →
               registered s' w b) ∧
      (hasFacade (kind b) = true →
       ∃ w s', StatementedNode.getBody hasFacade notImplementedMessage this s = Normal w s')
  | StatementedNode.FunctionDeclaration None =>
      StatementedNode.getBody hasFacade notImplementedMessage this s =
      Throw (NotImplementedError StatementedNode.noBodyMessage) s
  | StatementedNode.FunctionLikeDeclaration _ _ =>
      StatementedNode.getBody hasFacade notImplementedMessage this s =
      Throw (NotImplementedError (notImplementedMessage (StatementedNode.getKind this))) s
  end ∧
  (∀ w s', StatementedNode.getBody hasFacade notImplementedMessage this s = Normal w s' →
           is_Some (nodes s' !! w)) ∧
  StatementedNode.getBody hasFacade notImplementedMessage this s ≠ Stuck.
Proof.
  intros Hsound Hself. destruct this as [self node]. simpl in *.
  assert (∀ b, getNodeFromCompilerNode hasFacade b s ≠ Stuck) as Hwrap.
  { intros b. unfold getNodeFromCompilerNode.
    destruct (nodeCache s !! nid b); [done|]. by destruct (hasFacade (kind b)). }
  destruct node as [|b|[b|]|k b]; unfold StatementedNode.getBody; simpl.
  - split_and!; [done | by intros w s' [= <- <-] | done].
  - split_and!; [done| | | |].
    + intros w s' Hrun. by eapply getNodeFromCompilerNode_live.
    + intros Hf. destruct (getNodeFromCompilerNode_registered hasFacade b s Hsound Hf)
        as (w & s' & Hrun & _). eauto.
    + intros w s' Hrun. eapply registered_live, getNodeFromCompilerNode_live; done.
    + apply Hwrap.
  - split_and!; [done| | | |].
    + intros w s' Hrun. by eapply getNodeFromCompilerNode_live.
    + intros Hf. destruct (getNodeFromCompilerNode_registered hasFacade b s Hsound Hf)
        as (w & s' & Hrun & _). eauto.
    + intros w s' Hrun. eapply registered_live, getNodeFromCompilerNode_live; done.
    + apply Hwrap.
  - done.
  - by destruct k.
Qed.

Lemma getBody_cases_witness :
  let this := StatementedNode.mk 1 (StatementedNode.FunctionDeclaration (Some Sample.oldBlock)) in
  (StatementedNode.getBody (λ _, true) Sample.names this Sample.store =
     getNodeFromCompilerNode (λ _, true) Sample.oldBlock Sample.store ∧
   (∀ w s', StatementedNode.getBody (λ _, true) Sample.names this Sample.store = Normal w s' →
            registered s' w Sample.oldBlock) ∧
   (true = true →
    ∃ w s', StatementedNode.getBody (λ _, true) Sample.names this Sample.store = Normal w s')) ∧
  (∀ w s', StatementedNode.getBody (λ _, true) Sample.names this Sample.store = Normal w s' →
           is_Some (nodes s' !! w)) ∧
  StatementedNode.getBody (λ _, true) Sample.names this Sample.store ≠ Stuck.
Proof.
  apply (getBody_cases (λ _, true) Sample.names
           (StatementedNode.mk 1 (StatementedNode.FunctionDeclaration (Some Sample.oldBlock)))
           Sample.store).
  - apply (bool_decide_unpack _). vm_compute. exact I.
  - apply (bool_decide_unpack _). vm_compute. exact I.
Defined.

(** C9 — The accessors of [IfStatement].  [getElseStatement] returns
    [undefined] exactly when the if statement has no else clause, and
    otherwise what it returns is the wrapper the registry holds for the
    else statement; what [getExpression] and [getThenStatement] return is
    the wrapper of the condition and of the then branch, never
    [undefined].  Each of them does return when the registry has a
    facade type for the kind of the node it wraps. *)
Theorem ifStatement_accessors hasFacade this s :
  cache_sound s →
  ((∀ w s', IfStatement.getExpression hasFacade this s = Normal w s' →
            registered s' w (expression (IfStatement.compilerNode this))) ∧
   (hasFacade (kind (expression (IfStatement.compilerNode this))) = true →
    ∃ w s', IfStatement.getExpression hasFacade this s = Normal w s')) ∧
  ((∀ w s', IfStatement.getThenStatement hasFacade this s = Normal w s' →
            registered s' w (thenStatement (IfStatement.compilerNode this))) ∧
   (hasFacade (kind (thenStatement (IfStatement.compilerNode this))) = true →
    ∃ w s', IfStatement.getThenStatement hasFacade this s = Normal w s')) ∧
  ((∃ s', IfStatement.getElseStatement hasFacade this s = Normal None s') ↔
   elseStatement (IfStatement.compilerNode this) = None) ∧
  (elseStatement (IfStatement.compilerNode this) = None →
   IfStatement.getElseStatement hasFacade this s = Normal None s) ∧
  (∀ e, elseStatement (IfStatement.compilerNode this) = Some e →
        (∀ r s', IfStatement.getElseStatement hasFacade this s = Normal r s' →
                 ∃ w, r = Some w ∧ registered s' w e) ∧
        (hasFacade (kind e) = true →
         ∃ w s', IfStatement.getElseStatement hasFacade this s = Normal (Some w) s')).
Proof.
  intros Hsound. destruct this as [[e t o]]. simpl in *.
  unfold IfStatement.getExpression, IfStatement.getThenStatement,
    IfStatement.getElseStatement, _getNodeFromCompilerNodeIfExists,
    _getNodeFromCompilerNode. simpl.
  split_and!.
  - intros w s' Hrun. by eapply getNodeFromCompilerNode_live.
  - intros Hf. destruct (getNodeFromCompilerNode_registered hasFacade e s Hsound Hf)
      as (w & s' & Hrun & _). eauto.
  - intros w s' Hrun. by eapply getNodeFromCompilerNode_live.
  - intros Hf. destruct (getNodeFromCompilerNode_registered hasFacade t s Hsound Hf)
      as (w & s' & Hrun & _). eauto.
  - destruct o as [e'|]; [|by split; eauto]. split; [|done].
    intros [s' Hrun]. rewrite bind_run in Hrun.
    by destruct (getNodeFromCompilerNode hasFacade e' s).
  - by intros ->.
  - intros e' ->. split.
    + intros r s' Hrun. rewrite bind_run in Hrun.
      destruct (getNodeFromCompilerNode hasFacade e' s) as [w s1| |] eqn:Hwrap; [|done..].
      injection Hrun as <- <-. exists w. split; [done|].
      by eapply getNodeFromCompilerNode_live.
    + intros Hf. rewrite bind_run.
      destruct (getNodeFromCompilerNode_registered hasFacade e' s Hsound Hf)
        as (w & s' & -> & _).
      by exists w, s'.
Qed.

Lemma ifStatement_accessors_witness :
  ∃ w s', IfStatement.getElseStatement (λ _, true)
            (IfStatement.mk
               (mk_ts_IfStatement Sample.ifCondition Sample.ifThen (Some Sample.ifElse)))
            Sample.store = Normal (Some w) s'.
Proof.
  destruct (ifStatement_accessors (λ _, true)
              (IfStatement.mk
                 (mk_ts_IfStatement Sample.ifCondition Sample.ifThen (Some Sample.ifElse)))
              Sample.store) as (_ & _ & _ & _ & Helse).
  - apply (bool_decide_unpack _). vm_compute. exact I.
  - destruct (Helse Sample.ifElse eq_refl) as [_ Hreturns]. apply Hreturns. reflexivity.
Defined.

(** * The variable declarations of a container *)

Lemma array_map_pure {A B} (f : A → M B) (g : A → B) (xs : list A) s :
  (∀ x s', x ∈ xs → f x s' = Normal (g x) s') →
  array_map f xs s = Normal (g <$> xs) s.
Proof.
  intros Hf. induction xs as [|x xs IH]; [done|].
  simpl. rewrite bind_run, Hf by (by apply elem_of_cons; left).
  rewrite bind_run, IH; [done|]. intros x' s' Hx'. apply Hf. by apply elem_of_cons; right.
Qed.

(** The loop that pushes the declarations of each list is the
    concatenation of the declarations of the lists. *)
Lemma for_of_push {A B} (f : A → M (list B)) (xs : list A) : ∀ acc s,
  for_of xs (λ x acc, ys ← f x; mret (acc ++ ys)) acc s =
  (yss ← array_map f xs; mret (acc ++ mjoin yss)) s.
Proof.
  induction xs as [|x xs IH]; intros acc s; simpl.
  - rewrite bind_run. simpl. by rewrite app_nil_r.
  - rewrite !bind_run. destruct (f x s) as [ys s1| |]; [|done..].
    simpl. rewrite IH, !bind_run.
    destruct (array_map f xs s1) as [yss s2| |]; [|done..].
    simpl. by rewrite app_assoc.
Qed.

(** C10 — [getVariableDeclarations] is the concatenation, in order, of
    [getDeclarations] over [getVariableDeclarationLists], which is
    [getDeclarationList] mapped over [getVariableStatements]; when the
    two accessors only read, it is the declarations of the declaration
    list of each variable statement, statement after statement. *)
Theorem getVariableDeclarations_flatten
    (getMainChildrenOfKind : StatementedNode.t → SyntaxKind.t → M (list nat))
    (getDeclarationList : nat → M nat) (getDeclarations : nat → M (list nat))
    (this : StatementedNode.t) (s : Store) :
  StatementedNode.getVariableDeclarations
    getMainChildrenOfKind getDeclarationList getDeclarations this s =
  (lists ← StatementedNode.getVariableDeclarationLists
             getMainChildrenOfKind getDeclarationList this;
   declarations ← array_map getDeclarations lists;
   mret (mjoin declarations)) s ∧
  StatementedNode.getVariableDeclarationLists
    getMainChildrenOfKind getDeclarationList this s =
  (statements ← StatementedNode.getVariableStatements getMainChildrenOfKind this;
   array_map getDeclarationList statements) s ∧
  (∀ (listOf : nat → nat) (declarationsOf : nat → list nat) statements s',
     StatementedNode.getVariableStatements getMainChildrenOfKind this s =
       Normal statements s' →
     (∀ statement s0, getDeclarationList statement s0 = Normal (listOf statement) s0) →
     (∀ list s0, getDeclarations list s0 = Normal (declarationsOf list) s0) →
     StatementedNode.getVariableDeclarations
       getMainChildrenOfKind getDeclarationList getDeclarations this s =
     Normal (statements ≫= λ statement, declarationsOf (listOf statement)) s').
Proof.
  assert (StatementedNode.getVariableDeclarations
            getMainChildrenOfKind getDeclarationList getDeclarations this s =
          (lists ← StatementedNode.getVariableDeclarationLists
                     getMainChildrenOfKind getDeclarationList this;
           declarations ← array_map getDeclarations lists;
           mret (mjoin declarations)) s) as Hflat.
  { unfold StatementedNode.getVariableDeclarations. rewrite !bind_run.
    destruct (StatementedNode.getVariableDeclarationLists _ _ this s) as [lists s1| |];
      [|done..].
    rewrite bind_run, for_of_push, !bind_run.
    by destruct (array_map getDeclarations lists s1). }
  split_and!; [done | done |].
  intros listOf declarationsOf statements s' Hstatements Hlist Hdecls.
  rewrite Hflat. unfold StatementedNode.getVariableDeclarationLists.
  rewrite !bind_run, Hstatements.
  rewrite (array_map_pure _ listOf) by (intros; apply Hlist).
  rewrite bind_run, (array_map_pure _ declarationsOf) by (intros; apply Hdecls).
  simpl. f_equal. clear Hstatements.
  induction statements as [|st sts IH]; [done|].
  rewrite !fmap_cons, bind_cons. simpl. by rewrite IH.
Qed.

Lemma getVariableDeclarations_flatten_witness :
  StatementedNode.getVariableDeclarations Sample.mainChildrenOfKind
    (λ statement, mret (Sample.declarationListOf statement))
    (λ list, mret (Sample.declarationsOf list))
    (StatementedNode.mk 0 StatementedNode.SourceFile) Sample.store =
  Normal [40; 41; 42; 43] Sample.store.
Proof.
  apply (proj2 (proj2 (getVariableDeclarations_flatten Sample.mainChildrenOfKind
                         (λ statement, mret (Sample.declarationListOf statement))
                         (λ list, mret (Sample.declarationsOf list))
                         (StatementedNode.mk 0 StatementedNode.SourceFile) Sample.store))
           Sample.declarationListOf Sample.declarationsOf [10; 11] Sample.store).
  - reflexivity.
  - reflexivity.
  - reflexivity.
Defined.

(** * Further properties of the strategy *)

Lemma for_of_never_stuck names sf fuel ts :
  Forall (never_stuck names sf) ts →
  ∀ it s,
    Forall (shape (nodes s)) ts → Forall (λ t, height t ≤ fuel) ts →
    for_of (root <$> ts) (pairNext (handleNode names fuel) sf) it s ≠ Stuck.
Proof.
  induction 1 as [|t ts Ht _ IH]; intros it s Hsh Hh; [done|].
  inversion_clear Hsh as [|? ? Hsht Hshts]. inversion_clear Hh as [|? ? Hht Hhts].
  change (root <$> t :: ts) with (root t :: (root <$> ts)).
  rewrite for_of_cons, bind_run.
  assert (∃ v it', pairNext (handleNode names fuel) sf (root t) it s =
                   (handleNode names fuel (root t) v sf;; mret it') s) as (v & it' & ->).
  { destruct it as [|m it]; [by exists None, [] | by exists (Some m), it]. }
  rewrite bind_run.
  pose proof (Ht v fuel s Hsht Hht) as Hstep.
  pose proof (handleNode_skeleton names fuel (root t) v sf s) as Hsk.
  destruct (handleNode names fuel (root t) v sf s) as [[] s1|e s1|]; [|done..].
  simpl. apply IH; [|done].
  apply (Forall_impl _ _ _ Hshts). intros t'. by apply shape_same_skeleton.
Qed.

(** With a budget that covers the height of a wrapper tree, a run on the
    tree completes or raises. *)
Lemma handleNode_never_stuck names sf t : never_stuck names sf t.
Proof.
  induction t as [w ts IH] using wtree_ind'. intros n fuel s Hsh Hh.
  destruct fuel as [|fuel]; [rewrite height_unfold in Hh; lia|].
  inversion Hsh as [? ? x Hw Hcs Hts]; subst. simpl root.
  destruct n as [n|]; [|by rewrite (handleNode_undefined _ _ _ _ _ _ Hw)].
  destruct (decide (kind (compilerNode x) = kind n)) as [Hk|Hk];
    [|by rewrite (handleNode_mismatch _ _ _ _ _ _ _ Hw Hk)].
  rewrite (handleNode_match _ _ _ _ _ _ _ Hw Hk), bind_run.
  case_bool_decide as Hne.
  - rewrite (handleChildren_run _ _ _ _ _ _ Hw), Hcs, bind_run.
    pose proof (for_of_never_stuck names sf fuel ts IH (children n) s Hts
                  (height_subtrees _ _ _ Hh)) as Hloop.
    pose proof (for_of_pairNext_skeleton names fuel sf (root <$> ts) (children n) s) as Hsk.
    destruct (for_of _ _ _ s) as [it s1|e s1|]; [|done..].
    destruct (same_skeleton_lookup _ _ _ _ Hsk Hw) as (x1 & Hw1 & Hk1 & _).
    unfold noneLeftOver. destruct (negb _); simpl; [done|].
    by rewrite (replaceCompilerNode_run _ _ _ _ Hw1) by congruence.
  - simpl. by rewrite (replaceCompilerNode_run _ _ _ _ Hw Hk).
Qed.

(** X1 — When reconciliation completes.  On a wrapper tree the strategy
    completes, for some budget, exactly when the tree lines up with the
    new parse tree: the kinds agree at every pair, and every wrapper
    that tracks children tracks as many as its partner has.  When the
    tree does not line up, every budget that covers its height ends in a
    raise. *)
Theorem completes_iff_lines_up names sf t n s :
  shape (nodes s) t →
  ((∃ fuel s', handleNode names fuel (root t) (Some n) sf s = Normal tt s') ↔
   pairable (nodes s) t n) ∧
  (∀ fuel, height t ≤ fuel → ¬ pairable (nodes s) t n →
           ∃ e s', handleNode names fuel (root t) (Some n) sf s = Throw e s').
Proof.
  intros Hsh. split; [split|].
  - intros (fuel & s' & Hrun).
    by destruct (handleNode_normal_pairable names sf t n fuel s s' Hsh Hrun).
  - intros Hp. exists (height t). eexists. by apply handleNode_pairable.
  - intros fuel Hh Hnp.
    pose proof (handleNode_never_stuck names sf t (Some n) fuel s Hsh Hh) as Hns.
    destruct (handleNode names fuel (root t) (Some n) sf s) as [[] s'|e s'|] eqn:Hrun;
      [|by eauto|done].
    by destruct (handleNode_normal_pairable names sf t n fuel s s' Hsh Hrun).
Qed.

Lemma completes_iff_lines_up_witness :
  ((∃ fuel s', handleNode Sample.names fuel 0 (Some Sample.newFile2) Sample.newFile2
                 Sample.store2 = Normal tt s') ↔
   pairable (nodes Sample.store2) (WT 0 [WT 1 []; WT 2 []]) Sample.newFile2) ∧
  (∀ fuel, height (WT 0 [WT 1 []; WT 2 []]) ≤ fuel →
           ¬ pairable (nodes Sample.store2) (WT 0 [WT 1 []; WT 2 []]) Sample.newFile2 →
           ∃ e s', handleNode Sample.names fuel 0 (Some Sample.newFile2) Sample.newFile2
                     Sample.store2 = Throw e s').
Proof.
  apply (completes_iff_lines_up Sample.names Sample.newFile2 (WT 0 [WT 1 []; WT 2 []])
           Sample.newFile2 Sample.store2).
  solve_shape.
Defined.

Lemma for_of_strategy_error names sf fuel :
  (∀ w n s e s', handleNode names fuel w n sf s = Throw e s' → strategy_error names e) →
  ∀ cs it s e s',
    for_of cs (pairNext (handleNode names fuel) sf) it s = Throw e s' →
    strategy_error names e.
Proof.
  intros IH cs. induction cs as [|c cs IHcs]; intros it s e s' Hrun; [done|].
  rewrite for_of_cons, bind_run in Hrun.
  assert (∃ v it', pairNext (handleNode names fuel) sf c it s =
                   (handleNode names fuel c v sf;; mret it') s) as (v & it' & Heq).
  { destruct it as [|m it]; [by exists None, [] | by exists (Some m), it]. }
  rewrite Heq, bind_run in Hrun.
  destruct (handleNode names fuel c v sf s) as [[] s1|e1 s1|] eqn:Hc; [| |done].
  - simpl in Hrun. by eapply IHcs.
  - injection Hrun as <- <-. by eapply IH.
Qed.

(** X2 — The errors of the strategy.  Whatever the wrapper, the new node
    and the store, a raise of [handleNode] is the [TypeError] of an
    [undefined] new node, the left-over [Error], or the
    [InvalidOperationError] of two kinds that differ.  In particular the
    rebind at the end of [handleNode] never fails: its kinds were
    compared, and nothing in between changes a kind. *)
Theorem raises_only_its_errors names fuel w n sf s e s' :
  handleNode names fuel w n sf s = Throw e s' → strategy_error names e.
Proof.
  revert w n s e s'. induction fuel as [|fuel IH]; intros w n s e s' Hrun; [done|].
  destruct (nodes s !! w) as [x|] eqn:Hw.
  2: { simpl in Hrun. unfold getKind, getNode in Hrun.
       by rewrite !bind_run, Hw in Hrun. }
  destruct n as [n|].
  2: { rewrite (handleNode_undefined _ _ _ _ _ _ Hw) in Hrun. injection Hrun as <- _.
       by left. }
  destruct (decide (kind (compilerNode x) = kind n)) as [Hk|Hk].
  2: { rewrite (handleNode_mismatch _ _ _ _ _ _ _ Hw Hk) in Hrun.
       injection Hrun as <- _. right; right. by eexists _, _. }
  rewrite (handleNode_match _ _ _ _ _ _ _ Hw Hk), bind_run in Hrun.
  case_bool_decide as Hne.
  - rewrite (handleChildren_run _ _ _ _ _ _ Hw), bind_run in Hrun.
    pose proof (for_of_pairNext_skeleton names fuel sf (wrappedChildren x) (children n) s)
      as Hsk.
    destruct (for_of _ _ _ s) as [it s1|e1 s1|] eqn:Hloop; [| |done].
    + destruct (same_skeleton_lookup _ _ _ _ Hsk Hw) as (x1 & Hw1 & Hk1 & _).
      unfold noneLeftOver in Hrun. destruct (negb _); simpl in Hrun.
      * injection Hrun as <- _. right; by left.
      * by rewrite (replaceCompilerNode_run _ _ _ _ Hw1) in Hrun by congruence.
    + injection Hrun as <- <-. by eapply (for_of_strategy_error names sf fuel IH).
  - simpl in Hrun. by rewrite (replaceCompilerNode_run _ _ _ _ Hw Hk) in Hrun.
Qed.

Lemma raises_only_its_errors_witness :
  strategy_error Sample.names
    (InvalidOperationError (replacingTreeMessage "ClassDeclaration" "EnumDeclaration")).
Proof.
  apply (raises_only_its_errors Sample.names 2 0 (Some Sample.newFile2) Sample.newFile2
           Sample.store2 _
           (foldl rebind Sample.store2 [(1, Sample.newFunction2)])).
  vm_compute. reflexivity.
Defined.

(** X3 — What no run changes.  However [handleNode] ends, by completing
    or by a raise, on whatever wrapper, new node and store, the wrapper
    objects of the store are the same, and each has the kind and the
    tracked children it had. *)
Theorem keeps_kinds_and_children names fuel w n sf s :
  match handleNode names fuel w n sf s with
  | Normal _ s' | Throw _ s' =>
      dom (nodes s') = dom (nodes s) ∧
      ∀ w' x, nodes s !! w' = Some x →
              ∃ x', nodes s' !! w' = Some x' ∧
                    kind (compilerNode x') = kind (compilerNode x) ∧
                    wrappedChildren x' = wrappedChildren x
  | Stuck => True
  end.
Proof.
  pose proof (handleNode_skeleton names fuel w n sf s) as Hsk.
  destruct (handleNode names fuel w n sf s) as [[] s'|e s'|]; [| |done];
    (split; [by apply same_skeleton_dom | intros w' x; by apply same_skeleton_lookup]).
Qed.

(** X4 — The footprint of a run.  However a run on a wrapper tree ends,
    the store it ends in is the store it started from with rebinds of
    wrappers of the tree applied, in the order of the history; a wrapper
    outside the tree is bound as before. *)
Theorem rebinds_stay_in_tree names sf t n fuel s :
  shape (nodes s) t →
  match handleNode names fuel (root t) n sf s with
  | Normal _ s' | Throw _ s' =>
      (∃ ps, s' = foldl rebind s ps ∧ rebinds s' = rebinds s ++ ps ∧ ps.*1 ⊆ wids t) ∧
      ∀ w, w ∉ wids t → nodes s' !! w = nodes s !! w
  | Stuck => True
  end.
Proof.
  intros Hsh. pose proof (handleNode_stays_within names sf t n fuel s Hsh) as Hin.
  destruct (handleNode names fuel (root t) n sf s) as [[] s'|e s'|]; [| |done];
    (split; [done | intros w Hw; by apply (rebinds_within_frame (wids t))]).
Qed.

Lemma rebinds_stay_in_tree_witness :
  match handleNode Sample.names 3 1 (Some Sample.newFunction) Sample.newFile Sample.store with
  | Normal _ s' | Throw _ s' =>
      (∃ ps, s' = foldl rebind Sample.store ps ∧
             rebinds s' = rebinds Sample.store ++ ps ∧ ps.*1 ⊆ wids (WT 1 [WT 2 []])) ∧
      ∀ w, w ∉ wids (WT 1 [WT 2 []]) → nodes s' !! w = nodes Sample.store !! w
  | Stuck => True
  end.
Proof.
  apply (rebinds_stay_in_tree Sample.names Sample.newFile (WT 1 [WT 2 []])
           (Some Sample.newFunction) 3 Sample.store).
  solve_shape.
Defined.

(** X5 — Too few new children.  When the new node has fewer children
    than the wrapper tracks, and the tracked children that have a
    partner line up with it, [handleChildren] hands the next tracked
    child an [undefined] new node: the run raises the [TypeError] of
    reading its kind, with the rebinds of the children before it in
    place; the left-over check is not reached and [handleNode] does not
    rebind the parent. *)
Theorem missing_children_raise names sf fuel s w x n pre c post :
  nodes s !! w = Some x → kind (compilerNode x) = kind n →
  wrappedChildren x = root <$> (pre ++ c :: post) →
  Forall (shape (nodes s)) pre →
  Forall2 (pairable (nodes s)) pre (children n) →
  Forall (λ t, height t ≤ S fuel) pre →
  is_Some (nodes s !! root c) →
  handleChildren (handleNode names (S fuel)) w n sf s =
    Throw TypeError (foldl rebind s (postorders pre (children n))) ∧
  handleNode names (S (S fuel)) w (Some n) sf s =
    Throw TypeError (foldl rebind s (postorders pre (children n))) ∧
  rebinds (foldl rebind s (postorders pre (children n))) =
    rebinds s ++ postorders pre (children n).
Proof.
  intros Hw Hk Hcs Hsh Hps Hhs [xc Hxc].
  pose proof (for_of_pairable_prefix names sf (S fuel) pre) as Hpre.
  specialize (Hpre (proj2 (Forall_forall _ _) (λ t _, handleNode_pairable names sf t))
                   (children n) [] s Hsh Hps Hhs).
  rewrite app_nil_r in Hpre.
  pose proof (for_of_pairNext_skeleton names (S fuel) sf (root <$> pre) (children n) s)
    as Hsk.
  rewrite Hpre in Hsk.
  destruct (same_skeleton_lookup _ _ _ _ Hsk Hxc) as (xc' & Hxc' & _).
  assert (handleChildren (handleNode names (S fuel)) w n sf s =
          Throw TypeError (foldl rebind s (postorders pre (children n)))) as Hrun.
  { rewrite (handleChildren_run _ _ _ _ _ _ Hw), Hcs, fmap_app, bind_run.
    rewrite for_of_app, bind_run, Hpre.
    cbv beta iota. rewrite fmap_cons, for_of_cons, bind_run, pairNext_none, bind_run.
    by rewrite (handleNode_undefined _ _ _ _ _ _ Hxc'). }
  split_and!; [done| |].
  - rewrite (handleNode_match _ _ _ _ _ _ _ Hw Hk), bind_run.
    rewrite bool_decide_true by (rewrite Hcs; by destruct pre).
    by rewrite Hrun.
  - apply foldl_rebind_rebinds. intros w' Hw'. apply (shapes_wids_dom _ pre); [done|].
    eapply elem_of_submseteq; [done | apply postorders_wids].
Qed.

Lemma missing_children_raise_witness :
  let n := TsNode 210 SyntaxKind.SourceFile [Sample.newFunction2] in
  handleChildren (handleNode Sample.names 1) 0 n Sample.newFile2 Sample.store2 =
    Throw TypeError (foldl rebind Sample.store2 (postorders [WT 1 []] (children n))) ∧
  handleNode Sample.names 2 0 (Some n) Sample.newFile2 Sample.store2 =
    Throw TypeError (foldl rebind Sample.store2 (postorders [WT 1 []] (children n))) ∧
  rebinds (foldl rebind Sample.store2 (postorders [WT 1 []] (children n))) =
    rebinds Sample.store2 ++ postorders [WT 1 []] (children n).
Proof.
  apply (missing_children_raise Sample.names Sample.newFile2 0 Sample.store2 0
           (mkNode Sample.oldFile2 [1; 2])
           (TsNode 210 SyntaxKind.SourceFile [Sample.newFunction2])
           [WT 1 []] (WT 2 []) []).
  - reflexivity.
  - reflexivity.
  - reflexivity.
  - solve_shape.
  - solve_pairable.
  - repeat constructor; simpl; lia.
  - apply (bool_decide_unpack _). vm_compute. exact I.
Defined.

(** After a pass on a pairable wrapper tree, the wrapper at each path is
    bound to the node at the same path. *)
Lemma postorder_bound s t n path w :
  shape (nodes s) t → NoDup (wids t) → pairable (nodes s) t n →
  wnode_at t path = Some w →
  ∃ m x, tnode_at n path = Some m ∧
         nodes (foldl rebind s (postorder t n)) !! w = Some x ∧ compilerNode x = m.
Proof.
  intros Hsh Hnd Hp Hw.
  destruct (pairable_at_path _ t n path w Hp Hw) as [m Hm].
  pose proof (postorder_at_path t n path w m Hw Hm) as Hin.
  assert (w ∈ (postorder t n).*1) as Hin1.
  { apply list_elem_of_fmap. by exists (w, m). }
  destruct (postorder_dom _ t n w Hsh Hin1) as [x Hx].
  exists m, (mkNode m (wrappedChildren x)). split_and!; [done| |done].
  eapply foldl_rebind_bound; [|done..].
  eapply submseteq_NoDup; [apply postorder_wids | done].
Qed.

(** X6 — Pass after pass.  A wrapper tree that lines up with two new
    parse trees can be reconciled against the first and then against
    the second: both passes complete, the tree keeps its shape, and in
    the end the wrapper at each path is bound to the node at the same
    path of the second tree; the history holds the rebinds of the first
    pass followed by those of the second. *)
Theorem successive_passes names sf1 sf2 t n1 n2 fuel s :
  shape (nodes s) t → NoDup (wids t) →
  pairable (nodes s) t n1 → pairable (nodes s) t n2 → height t ≤ fuel →
  ∃ s1 s2,
    handleNode names fuel (root t) (Some n1) sf1 s = Normal tt s1 ∧
    handleNode names fuel (root t) (Some n2) sf2 s1 = Normal tt s2 ∧
    shape (nodes s2) t ∧
    (∀ path w, wnode_at t path = Some w →
       ∃ m x, tnode_at n2 path = Some m ∧ nodes s2 !! w = Some x ∧ compilerNode x = m) ∧
    rebinds s2 = rebinds s ++ postorder t n1 ++ postorder t n2.
Proof.
  intros Hsh Hnd Hp1 Hp2 Hh.
  pose proof (handleNode_pairable names sf1 t n1 fuel s Hsh Hp1 Hh) as Hrun1.
  pose proof (handleNode_skeleton names fuel (root t) (Some n1) sf1 s) as Hsk1.
  rewrite Hrun1 in Hsk1. set (s1 := foldl rebind s (postorder t n1)) in *.
  assert (shape (nodes s1) t) as Hsh1 by by eapply shape_same_skeleton.
  assert (pairable (nodes s1) t n2) as Hp21 by by eapply pairable_same_skeleton.
  pose proof (handleNode_pairable names sf2 t n2 fuel s1 Hsh1 Hp21 Hh) as Hrun2.
  pose proof (handleNode_skeleton names fuel (root t) (Some n2) sf2 s1) as Hsk2.
  rewrite Hrun2 in Hsk2.
  exists s1, (foldl rebind s1 (postorder t n2)). split_and!; [done..| | |].
  - by eapply shape_same_skeleton.
  - intros path w Hw. by apply postorder_bound.
  - rewrite foldl_rebind_rebinds by (intros w Hw; by apply (postorder_dom _ t n2)).
    unfold s1. rewrite foldl_rebind_rebinds by (intros w Hw; by apply (postorder_dom _ t n1)).
    by rewrite app_assoc.
Qed.

Lemma successive_passes_witness :
  ∃ s1 s2,
    handleNode Sample.names 3 0 (Some Sample.newFile) Sample.newFile Sample.store
      = Normal tt s1 ∧
    handleNode Sample.names 3 0 (Some Sample.oldFile) Sample.oldFile s1 = Normal tt s2 ∧
    shape (nodes s2) Sample.tree ∧
    (∀ path w, wnode_at Sample.tree path = Some w →
       ∃ m x, tnode_at Sample.oldFile path = Some m ∧
              nodes s2 !! w = Some x ∧ compilerNode x = m) ∧
    rebinds s2 = rebinds Sample.store ++ postorder Sample.tree Sample.newFile ++
                 postorder Sample.tree Sample.oldFile.
Proof.
  apply (successive_passes Sample.names Sample.newFile Sample.oldFile Sample.tree
           Sample.newFile Sample.oldFile 3 Sample.store).
  - solve_shape.
  - apply (bool_decide_unpack _). vm_compute. exact I.
  - solve_pairable.
  - solve_pairable.
  - simpl. lia.
Defined.

(** * Further properties of the statemented node *)

Lemma string_length_app (a b : string) :
  String.length (a +:+ b) = String.length a + String.length b.
Proof. induction a as [|c a IH]; simpl; [done|]. by rewrite IH. Qed.

Lemma string_app_assoc (a b c : string) : (a +:+ (b +:+ c) = (a +:+ b) +:+ c)%string.
Proof.
  induction a as [|x a IH]; [done|].
  change (String x (a +:+ (b +:+ c)) = String x ((a +:+ b) +:+ c)).
  by rewrite IH.
Qed.

(** X7 — The text of a new enum.  The text [addEnumDeclaration] inserts
    opens with the indentation and closes with the new-line character,
    and its length is twice the indentation, the name, twice the
    new-line character and the eight characters of the keyword, the
    braces and the blanks. *)
Theorem enumDeclarationText_shape indentationText name newLineChar :
  let text := StatementedNode.enumDeclarationText indentationText name newLineChar in
  (∃ rest, text = (indentationText +:+ "enum " +:+ name +:+ rest)%string) ∧
  (∃ front, text = (front +:+ indentationText +:+ "}" +:+ newLineChar)%string) ∧
  String.length text =
    2 * String.length indentationText + String.length name +
    2 * String.length newLineChar + 8.
Proof.
  unfold StatementedNode.enumDeclarationText. split_and!.
  - by eexists.
  - exists (indentationText +:+ "enum " +:+ name +:+ " {" +:+ newLineChar)%string.
    by rewrite <- !string_app_assoc.
  - rewrite !string_length_app. simpl. lia.
Qed.

Lemma for_of_array_map {A B} (f : A → M B) (xs : list A) (s : Store) :
  for_of xs (λ x _, f x;; mret tt) tt s = (array_map f xs;; mret tt) s.
Proof.
  revert s. induction xs as [|x xs IH]; intros s; [done|].
  rewrite for_of_cons. simpl array_map. rewrite !bind_run.
  destruct (f x s) as [y s1| |]; [|done..].
  simpl. rewrite IH, !bind_run. by destruct (array_map f xs s1).
Qed.

Section EditingProperties.

Context (hasFacade : SyntaxKind.t → bool) (notImplementedMessage : SyntaxKind.t → string)
  (getMainChildrenOfKind : StatementedNode.t → SyntaxKind.t → M (list nat))
  (getEnd : nat → M Z) (Member : Type)
  (getRequiredSourceFile : StatementedNode.t → M nat) (getNewLine : M string)
  (getChildIndentationText : StatementedNode.t → nat → M string)
  (appendNewLineSeparatorIfNecessary : StatementedNode.t → nat → M unit)
  (insertText : nat → Z → string → M unit)
  (addMember : nat → Member → M nat).

#[local] Abbreviation getInsertPosition :=
  (StatementedNode.getInsertPosition hasFacade notImplementedMessage getEnd).

#[local] Abbreviation addEnumDeclaration :=
  (StatementedNode.addEnumDeclaration hasFacade notImplementedMessage
     getMainChildrenOfKind getEnd Member getRequiredSourceFile getNewLine
     getChildIndentationText appendNewLineSeparatorIfNecessary insertText addMember).

(** The error [getBody] raises for a node without a body to return. *)
Lemma getBody_not_implemented this s :
  StatementedNode.node this = StatementedNode.FunctionDeclaration None ∨
  (∃ k b, StatementedNode.node this = StatementedNode.FunctionLikeDeclaration k b) →
  StatementedNode.getBody hasFacade notImplementedMessage this s =
  Throw (if StatementedNode.isFunctionDeclaration this
         then NotImplementedError StatementedNode.noBodyMessage
         else StatementedNode.getNotImplementedError notImplementedMessage this) s ∧
  StatementedNode.isSourceFile this = false.
Proof.
  destruct this as [self node]. simpl.
  intros [->|(k & b & ->)]; [done|]. by destruct k.
Qed.

(** X8 — The insert position.  For a source file it is the end of the
    file, and the registry is not asked.  For a namespace declaration
    and for a function declaration with a body it is one before the end
    of the wrapper the registry holds for the body.  For a function
    declaration without a body and for the other function-like nodes it
    is the raise of [getBody], and no position is read. *)
Theorem getInsertPosition_cases this s :
  cache_sound s →
  match StatementedNode.node this with
  | StatementedNode.SourceFile =>
      getInsertPosition this s = getEnd (StatementedNode.self this) s
  | StatementedNode.ModuleDeclaration b
  | StatementedNode.FunctionDeclaration (Some b) =>
      getInsertPosition this s =
        (body ← getNodeFromCompilerNode hasFacade b;
         bodyEnd ← getEnd body; mret (bodyEnd - 1)%Z) s ∧
      ∀ position s', getInsertPosition this s = Normal position s' →
        ∃ body s1 bodyEnd,
          registered s1 body b ∧ getEnd body s1 = Normal bodyEnd s' ∧
          position = (bodyEnd - 1)%Z
  | StatementedNode.FunctionDeclaration None =>
      getInsertPosition this s =
      Throw (NotImplementedError StatementedNode.noBodyMessage) s
  | StatementedNode.FunctionLikeDeclaration _ _ =>
      getInsertPosition this s =
      Throw (StatementedNode.getNotImplementedError notImplementedMessage this) s
  end.
Proof.
  intros Hsound. destruct this as [self node].
  assert (∀ b position s',
            (body ← getNodeFromCompilerNode hasFacade b;
             bodyEnd ← getEnd body; mret (bodyEnd - 1)%Z) s = Normal position s' →
            ∃ body s1 bodyEnd,
              registered s1 body b ∧ getEnd body s1 = Normal bodyEnd s' ∧
              position = (bodyEnd - 1)%Z) as Hbody.
  { intros b position s'. rewrite bind_run.
    destruct (getNodeFromCompilerNode hasFacade b s) as [body s1| |] eqn:Hwrap; [|done..].
    rewrite bind_run. destruct (getEnd body s1) as [bodyEnd s2| |] eqn:Hend; [|done..].
    intros [= <- <-]. exists body, s1, bodyEnd. split_and!; [|done..].
    by eapply getNodeFromCompilerNode_live. }
  destruct node as [|b|[b|]|k b]; simpl; unfold StatementedNode.getInsertPosition; simpl.
  - done.
  - split; [done|]. apply Hbody.
  - split; [done|]. apply Hbody.
  - done.
  - by destruct k.
Qed.

(** X9 — A new enum where there is no body.  On a function declaration
    without a body, and on the other function-like nodes,
    [addEnumDeclaration] asks for the source file, the new-line
    character and the indentation, appends the separator, and then
    raises the not-implemented error of [getBody]: no position is read,
    no text is inserted, no enum is looked up and no member is added. *)
Theorem addEnumDeclaration_without_body this structure s :
  StatementedNode.node this = StatementedNode.FunctionDeclaration None ∨
  (∃ k b, StatementedNode.node this = StatementedNode.FunctionLikeDeclaration k b) →
  addEnumDeclaration this structure s =
  (sourceFile ← getRequiredSourceFile this;
   _ ← getNewLine;
   _ ← getChildIndentationText this sourceFile;
   appendNewLineSeparatorIfNecessary this sourceFile;;
   throw (if StatementedNode.isFunctionDeclaration this
          then NotImplementedError StatementedNode.noBodyMessage
          else StatementedNode.getNotImplementedError notImplementedMessage this)) s.
Proof.
  intros Hnode. unfold StatementedNode.addEnumDeclaration. rewrite !bind_run.
  destruct (getRequiredSourceFile this s) as [sf s1| |]; [|done..].
  rewrite !bind_run. destruct (getNewLine s1) as [nl s2| |]; [|done..].
  rewrite !bind_run. destruct (getChildIndentationText this sf s2) as [ind s3| |]; [|done..].
  rewrite !bind_run.
  destruct (appendNewLineSeparatorIfNecessary this sf s3) as [[] s4| |]; [|done..].
  rewrite bind_run. unfold StatementedNode.getInsertPosition.
  destruct (getBody_not_implemented this s4 Hnode) as [Hbody ->].
  by rewrite bind_run, Hbody.
Qed.

(** Once the text is in and the enums are looked up, what is left of
    [addEnumDeclaration] is the loop over the members and the return of
    the last enum. *)
Lemma addEnumDeclaration_after_insertion this structure
    s sourceFile s1 newLineChar s2 indentationText s3 s4 position s5 s6 enums s7 :
  getRequiredSourceFile this s = Normal sourceFile s1 →
  getNewLine s1 = Normal newLineChar s2 →
  getChildIndentationText this sourceFile s2 = Normal indentationText s3 →
  appendNewLineSeparatorIfNecessary this sourceFile s3 = Normal tt s4 →
  getInsertPosition this s4 = Normal position s5 →
  insertText sourceFile position
    (StatementedNode.enumDeclarationText indentationText
       (StatementedNode.name structure) newLineChar) s5 = Normal tt s6 →
  StatementedNode.getEnums getMainChildrenOfKind this s6 = Normal enums s7 →
  addEnumDeclaration this structure s =
  (for_of (default [] (StatementedNode.members structure))
     (λ member _,
        match last enums with
        | None => throw TypeError
        | Some declaration => addMember declaration member;; mret tt
        end) tt;;
   mret (last enums)) s7.
Proof.
  intros H1 H2 H3 H4 H5 H6 H7. unfold StatementedNode.addEnumDeclaration.
  rewrite bind_run, H1, bind_run, H2, bind_run, H3, bind_run, H4.
  by rewrite bind_run, H5, bind_run, H6, bind_run, H7.
Qed.

(** X10 — The enum a new declaration is.  When the steps up to the
    look-up of the enums go through and there is an enum, what
    [addEnumDeclaration] returns is the last enum, after [addMember] was
    called on it once for each member of the structure, in their order;
    for a structure without members it is returned at once. *)
Theorem addEnumDeclaration_adds_to_last this structure
    s sourceFile s1 newLineChar s2 indentationText s3 s4 position s5 s6 enums s7
    declaration :
  getRequiredSourceFile this s = Normal sourceFile s1 →
  getNewLine s1 = Normal newLineChar s2 →
  getChildIndentationText this sourceFile s2 = Normal indentationText s3 →
  appendNewLineSeparatorIfNecessary this sourceFile s3 = Normal tt s4 →
  getInsertPosition this s4 = Normal position s5 →
  insertText sourceFile position
    (StatementedNode.enumDeclarationText indentationText
       (StatementedNode.name structure) newLineChar) s5 = Normal tt s6 →
  StatementedNode.getEnums getMainChildrenOfKind this s6 = Normal enums s7 →
  last enums = Some declaration →
  addEnumDeclaration this structure s =
    (array_map (addMember declaration) (default [] (StatementedNode.members structure));;
     mret (Some declaration)) s7 ∧
  (default [] (StatementedNode.members structure) = [] →
   addEnumDeclaration this structure s = Normal (Some declaration) s7).
Proof.
  intros H1 H2 H3 H4 H5 H6 H7 Hlast.
  rewrite (addEnumDeclaration_after_insertion this structure _ _ _ _ _ _ _ _ _ _ _ _ _
             H1 H2 H3 H4 H5 H6 H7), Hlast.
  assert (∀ ms, (for_of ms (λ member _, addMember declaration member;; mret tt) tt;;
                 mret (Some declaration)) s7 =
                (array_map (addMember declaration) ms;; mret (Some declaration)) s7) as Heq.
  { intros ms. rewrite !bind_run, for_of_array_map, bind_run.
    by destruct (array_map (addMember declaration) ms s7). }
  split; [apply Heq|]. by intros ->.
Qed.

(** X11 — No enum to return.  When the steps up to the look-up of the
    enums go through and the look-up finds none, [addEnumDeclaration]
    returns [undefined] for a structure without members, and for a
    structure with members raises the [TypeError] of calling [addMember]
    on [undefined], without a call of [addMember]; the text stays
    inserted. *)
Theorem addEnumDeclaration_no_enum this structure
    s sourceFile s1 newLineChar s2 indentationText s3 s4 position s5 s6 s7 :
  getRequiredSourceFile this s = Normal sourceFile s1 →
  getNewLine s1 = Normal newLineChar s2 →
  getChildIndentationText this sourceFile s2 = Normal indentationText s3 →
  appendNewLineSeparatorIfNecessary this sourceFile s3 = Normal tt s4 →
  getInsertPosition this s4 = Normal position s5 →
  insertText sourceFile position
    (StatementedNode.enumDeclarationText indentationText
       (StatementedNode.name structure) newLineChar) s5 = Normal tt s6 →
  StatementedNode.getEnums getMainChildrenOfKind this s6 = Normal [] s7 →
  addEnumDeclaration this structure s =
  match default [] (StatementedNode.members structure) with
  | [] => Normal None s7
  | _ :: _ => Throw TypeError s7
  end.
Proof.
  intros H1 H2 H3 H4 H5 H6 H7.
  rewrite (addEnumDeclaration_after_insertion this structure _ _ _ _ _ _ _ _ _ _ _ _ _
             H1 H2 H3 H4 H5 H6 H7).
  by destruct (default [] (StatementedNode.members structure)).
Qed.

End EditingProperties.

Lemma getInsertPosition_cases_witness :
  let this := StatementedNode.mk 1 (StatementedNode.FunctionDeclaration (Some Sample.oldBlock)) in
  StatementedNode.getInsertPosition (λ _, true) Sample.names SampleEdit.getEnd this Sample.store =
    (body ← getNodeFromCompilerNode (λ _, true) Sample.oldBlock;
     bodyEnd ← SampleEdit.getEnd body; mret (bodyEnd - 1)%Z) Sample.store ∧
  ∀ position s',
    StatementedNode.getInsertPosition (λ _, true) Sample.names SampleEdit.getEnd this Sample.store =
    Normal position s' →
    ∃ body s1 bodyEnd,
      registered s1 body Sample.oldBlock ∧ SampleEdit.getEnd body s1 = Normal bodyEnd s' ∧
      position = (bodyEnd - 1)%Z.
Proof.
  apply (getInsertPosition_cases (λ _, true) Sample.names SampleEdit.getEnd
           (StatementedNode.mk 1 (StatementedNode.FunctionDeclaration (Some Sample.oldBlock)))
           Sample.store).
  apply (bool_decide_unpack _). vm_compute. exact I.
Defined.

Lemma addEnumDeclaration_without_body_witness :
  StatementedNode.addEnumDeclaration (λ _, true) Sample.names
    (SampleEdit.mainChildrenOfKind [5; 7]) SampleEdit.getEnd nat
    SampleEdit.getRequiredSourceFile SampleEdit.getNewLine
    SampleEdit.getChildIndentationText SampleEdit.appendNewLineSeparatorIfNecessary
    SampleEdit.insertText SampleEdit.addMember
    SampleEdit.bodylessFunction
    (StatementedNode.mkEnumStructure "Colour" (Some [1; 2])) Sample.store =
  Throw (NotImplementedError StatementedNode.noBodyMessage) Sample.store.
Proof.
  rewrite (addEnumDeclaration_without_body (λ _, true) Sample.names
             (SampleEdit.mainChildrenOfKind [5; 7]) SampleEdit.getEnd nat
             SampleEdit.getRequiredSourceFile SampleEdit.getNewLine
             SampleEdit.getChildIndentationText SampleEdit.appendNewLineSeparatorIfNecessary
             SampleEdit.insertText SampleEdit.addMember
             SampleEdit.bodylessFunction
             (StatementedNode.mkEnumStructure "Colour" (Some [1; 2])) Sample.store).
  - reflexivity.
  - left. reflexivity.
Defined.

Lemma addEnumDeclaration_adds_to_last_witness :
  StatementedNode.addEnumDeclaration (λ _, true) Sample.names
    (SampleEdit.mainChildrenOfKind [5; 7]) SampleEdit.getEnd nat
    SampleEdit.getRequiredSourceFile SampleEdit.getNewLine
    SampleEdit.getChildIndentationText SampleEdit.appendNewLineSeparatorIfNecessary
    SampleEdit.insertText SampleEdit.addMember
    SampleEdit.sourceFile
    (StatementedNode.mkEnumStructure "Colour" (Some [1; 2])) Sample.store =
  Normal (Some 7) Sample.store.
Proof.
  destruct (addEnumDeclaration_adds_to_last (λ _, true) Sample.names
              (SampleEdit.mainChildrenOfKind [5; 7]) SampleEdit.getEnd nat
              SampleEdit.getRequiredSourceFile SampleEdit.getNewLine
              SampleEdit.getChildIndentationText SampleEdit.appendNewLineSeparatorIfNecessary
              SampleEdit.insertText SampleEdit.addMember
              SampleEdit.sourceFile
              (StatementedNode.mkEnumStructure "Colour" (Some [1; 2]))
              Sample.store 0 Sample.store SampleEdit.newLine Sample.store
              "    "%string Sample.store Sample.store 0%Z Sample.store Sample.store
              [5; 7] Sample.store 7) as [Hrun _].
  - reflexivity.
  - reflexivity.
  - reflexivity.
  - reflexivity.
  - reflexivity.
  - reflexivity.
  - reflexivity.
  - reflexivity.
  - rewrite Hrun. reflexivity.
Defined.

Lemma addEnumDeclaration_no_enum_witness :
  StatementedNode.addEnumDeclaration (λ _, true) Sample.names
    (SampleEdit.mainChildrenOfKind []) SampleEdit.getEnd nat
    SampleEdit.getRequiredSourceFile SampleEdit.getNewLine
    SampleEdit.getChildIndentationText SampleEdit.appendNewLineSeparatorIfNecessary
    SampleEdit.insertText SampleEdit.addMember
    SampleEdit.sourceFile
    (StatementedNode.mkEnumStructure "Colour" (Some [1])) Sample.store =
  Throw TypeError Sample.store.
Proof.
  rewrite (addEnumDeclaration_no_enum (λ _, true) Sample.names
             (SampleEdit.mainChildrenOfKind []) SampleEdit.getEnd nat
             SampleEdit.getRequiredSourceFile SampleEdit.getNewLine
             SampleEdit.getChildIndentationText SampleEdit.appendNewLineSeparatorIfNecessary
             SampleEdit.insertText SampleEdit.addMember
             SampleEdit.sourceFile
             (StatementedNode.mkEnumStructure "Colour" (Some [1]))
             Sample.store 0 Sample.store SampleEdit.newLine Sample.store
             "    "%string Sample.store Sample.store 0%Z Sample.store Sample.store
             Sample.store); reflexivity.
Defined.

(** * Reconciliation and navigation *)

(** A key that is not in the node cache and is the object of no new
    node is not in the node cache after the rebinds. *)
Lemma foldl_rebind_cache_none ps s k :
  nodeCache s !! k = None →
  (∀ n, n ∈ ps.*2 → nid n ≠ k) →
  nodeCache (foldl rebind s ps) !! k = None.
Proof.
  revert s. induction ps as [|[w n] ps IH]; intros s Hk Hnew; [done|].
  simpl. apply IH.
  - unfold rebind. simpl. destruct (nodes s !! w) as [x|]; [|done]. simpl.
    rewrite lookup_insert_ne.
    + destruct (decide (nid (compilerNode x) = k)) as [->|Hne].
      * by rewrite lookup_delete_eq.
      * by rewrite lookup_delete_ne.
    + apply Hnew. rewrite fmap_cons. by apply elem_of_cons; left.
  - intros n' Hn'. apply Hnew. rewrite fmap_cons. by apply elem_of_cons; right.
Qed.

(** The node a rebound wrapper was bound to is not in the node cache
    after the rebinds, when it is the object of no new node. *)
Lemma foldl_rebind_cache_removed ps s w x :
  NoDup ps.*1 → w ∈ ps.*1 → nodes s !! w = Some x →
  (∀ n, n ∈ ps.*2 → nid n ≠ nid (compilerNode x)) →
  nodeCache (foldl rebind s ps) !! nid (compilerNode x) = None.
Proof.
  revert s. induction ps as [|[w0 n0] ps IH]; intros s Hnd Hw Hx Hnew.
  { by apply not_elem_of_nil in Hw. }
  rewrite fmap_cons in Hnd. apply NoDup_cons in Hnd as [Hw0 Hnd]. simpl in Hw0.
  assert (∀ n, n ∈ ps.*2 → nid n ≠ nid (compilerNode x)) as Hnew'.
  { intros n Hn. apply Hnew. rewrite fmap_cons. by apply elem_of_cons; right. }
  assert (nid n0 ≠ nid (compilerNode x)) as Hn0.
  { apply Hnew. rewrite fmap_cons. by apply elem_of_cons; left. }
  rewrite fmap_cons in Hw. apply elem_of_cons in Hw as [Hw|Hw]; simpl in Hw; simpl.
  - subst w. apply foldl_rebind_cache_none; [|done].
    unfold rebind. simpl. rewrite Hx. simpl.
    by rewrite lookup_insert_ne, lookup_delete_eq.
  - apply IH; [done..| |done].
    rewrite rebind_nodes_ne; [done|]. simpl. by intros ->.
Qed.

(** X12 — Navigation after a pass.  After a reconciliation of a wrapper
    tree against a tree of fresh nodes that completes, a wrap of the new
    node at a path returns the wrapper that stands at that path of the
    wrapper tree and leaves the store as it is, whether or not the
    registry has a facade type for the node.  So [getBody] of a
    namespace or function declaration whose body is that node, and the
    accessors of an if statement that has that node as a part, return
    the wrapper the caller held before the pass. *)
Theorem wrappers_found_after_pass names sf t n fuel s s' hasFacade notImplementedMessage
    path w m :
  shape (nodes s) t → NoDup (wids t) → fresh_pairs s (postorder t n) →
  handleNode names fuel (root t) (Some n) sf s = Normal tt s' →
  wnode_at t path = Some w → tnode_at n path = Some m →
  getNodeFromCompilerNode hasFacade m s' = Normal w s' ∧
  (∀ self,
     StatementedNode.getBody hasFacade notImplementedMessage
       (StatementedNode.mk self (StatementedNode.ModuleDeclaration m)) s' = Normal w s' ∧
     StatementedNode.getBody hasFacade notImplementedMessage
       (StatementedNode.mk self (StatementedNode.FunctionDeclaration (Some m))) s'
     = Normal w s') ∧
  (∀ this,
     (expression (IfStatement.compilerNode this) = m →
      IfStatement.getExpression hasFacade this s' = Normal w s') ∧
     (thenStatement (IfStatement.compilerNode this) = m →
      IfStatement.getThenStatement hasFacade this s' = Normal w s') ∧
     (elseStatement (IfStatement.compilerNode this) = Some m →
      IfStatement.getElseStatement hasFacade this s' = Normal (Some w) s')).
Proof.
  intros Hsh Hnd Hfresh Hrun Hw Hm.
  assert (getNodeFromCompilerNode hasFacade m s' = Normal w s') as Hwrap.
  { destruct (handleNode_normal names sf t n fuel s s' Hsh Hrun) as [Hp ->].
    unfold getNodeFromCompilerNode. rewrite (foldl_rebind_cache _ _ w m); [done| |done| |].
    - eapply submseteq_NoDup; [apply postorder_wids | done].
    - intros w' Hw'. by apply (postorder_dom _ t n).
    - by apply (postorder_at_path t n path). }
  split_and!; [done| |].
  - intros self. split; exact Hwrap.
  - intros [[e th el]]. simpl. split_and!.
    + intros ->. exact Hwrap.
    + intros ->. exact Hwrap.
    + intros ->. unfold IfStatement.getElseStatement. simpl.
      unfold _getNodeFromCompilerNode. by rewrite bind_run, Hwrap.
Qed.

(** X13 — The old nodes are forgotten.  After a reconciliation of a
    wrapper tree against a tree of fresh nodes that completes, the node
    a wrapper of the tree was bound to before the pass is not in the
    node cache: a wrap of it does not return a wrapper that exists, it
    makes a new one, or raises when the registry has no facade type for
    it. *)
Theorem old_nodes_forgotten names sf t n fuel s s' hasFacade w x :
  shape (nodes s) t → NoDup (wids t) → fresh_pairs s (postorder t n) →
  handleNode names fuel (root t) (Some n) sf s = Normal tt s' →
  w ∈ wids t → nodes s !! w = Some x →
  nodeCache s' !! nid (compilerNode x) = None ∧
  match getNodeFromCompilerNode hasFacade (compilerNode x) s' with
  | Normal w' _ => nodes s' !! w' = None ∧ nodes s !! w' = None
  | Throw e s'' => e = UnsupportedKindError (kind (compilerNode x)) ∧ s'' = s'
  | Stuck => False
  end.
Proof.
  intros Hsh Hnd [_ Hfresh] Hrun Hw Hx.
  pose proof (handleNode_skeleton names fuel (root t) (Some n) sf s) as Hsk.
  rewrite Hrun in Hsk. apply same_skeleton_dom in Hsk.
  destruct (handleNode_normal names sf t n fuel s s' Hsh Hrun) as [Hp ->].
  assert (w ∈ (postorder t n).*1) as Hin.
  { eapply elem_of_submseteq; [done | by eapply pairable_wids]. }
  assert (nodeCache (foldl rebind s (postorder t n)) !! nid (compilerNode x) = None) as Hnone.
  { apply (foldl_rebind_cache_removed _ _ w); [|done..|].
    - eapply submseteq_NoDup; [apply postorder_wids | done].
    - intros n' Hn' Heq. by apply (Hfresh w x n'). }
  split; [done|]. unfold getNodeFromCompilerNode. rewrite Hnone.
  destruct (hasFacade (kind (compilerNode x))); [|done].
  assert (nodes (foldl rebind s (postorder t n)) !!
            fresh (dom (nodes (foldl rebind s (postorder t n)))) = None) as Hnew.
  { apply not_elem_of_dom, is_fresh. }
  split; [done|]. apply not_elem_of_dom. rewrite <- Hsk. apply is_fresh.
Qed.

(** The new nodes of the sample reparse are fresh objects. *)
Lemma sample_fresh_pairs : fresh_pairs Sample.store (postorder Sample.tree Sample.newFile).
Proof.
  split; [apply (bool_decide_unpack _); vm_compute; exact I|].
  intros w x n Hw Hx Hn.
  apply list_elem_of_In in Hw. apply list_elem_of_In in Hn. simpl in Hw, Hn.
  destruct Hw as [<-|[<-|[<-|[]]]]; vm_compute in Hx; injection Hx as <-;
    destruct Hn as [<-|[<-|[<-|[]]]]; simpl; lia.
Qed.

Lemma wrappers_found_after_pass_witness :
  let s' := foldl rebind Sample.store (postorder Sample.tree Sample.newFile) in
  getNodeFromCompilerNode (λ _, false) Sample.newBlock s' = Normal 2 s' ∧
  (∀ self,
     StatementedNode.getBody (λ _, false) Sample.names
       (StatementedNode.mk self (StatementedNode.ModuleDeclaration Sample.newBlock)) s'
     = Normal 2 s' ∧
     StatementedNode.getBody (λ _, false) Sample.names
       (StatementedNode.mk self (StatementedNode.FunctionDeclaration (Some Sample.newBlock))) s'
     = Normal 2 s') ∧
  (∀ this,
     (expression (IfStatement.compilerNode this) = Sample.newBlock →
      IfStatement.getExpression (λ _, false) this s' = Normal 2 s') ∧
     (thenStatement (IfStatement.compilerNode this) = Sample.newBlock →
      IfStatement.getThenStatement (λ _, false) this s' = Normal 2 s') ∧
     (elseStatement (IfStatement.compilerNode this) = Some Sample.newBlock →
      IfStatement.getElseStatement (λ _, false) this s' = Normal (Some 2) s')).
Proof.
  apply (wrappers_found_after_pass Sample.names Sample.newFile Sample.tree Sample.newFile
           3 Sample.store _ (λ _, false) Sample.names [0; 0] 2 Sample.newBlock).
  - solve_shape.
  - apply (bool_decide_unpack _). vm_compute. exact I.
  - exact sample_fresh_pairs.
  - vm_compute. reflexivity.
  - reflexivity.
  - reflexivity.
Defined.

Lemma old_nodes_forgotten_witness :
  let s' := foldl rebind Sample.store (postorder Sample.tree Sample.newFile) in
  nodeCache s' !! 102 = None ∧
  match getNodeFromCompilerNode (λ _, true) Sample.oldBlock s' with
  | Normal w' _ => nodes s' !! w' = None ∧ nodes Sample.store !! w' = None
  | Throw e s'' => e = UnsupportedKindError SyntaxKind.Block ∧ s'' = s'
  | Stuck => False
  end.
Proof.
  apply (old_nodes_forgotten Sample.names Sample.newFile Sample.tree Sample.newFile
           3 Sample.store _ (λ _, true) 2 (mkNode Sample.oldBlock [])).
  - solve_shape.
  - apply (bool_decide_unpack _). vm_compute. exact I.
  - exact sample_fresh_pairs.
  - vm_compute. reflexivity.
  - apply (bool_decide_unpack _). vm_compute. exact I.
  - vm_compute. reflexivity.
Defined.

(** * Further properties of the variable declarations *)

(** A callback that raises stops the map where it raises. *)
Lemma array_map_raise {A B} (f : A → M B) pre x post s ys s1 e s2 :
  array_map f pre s = Normal ys s1 → f x s1 = Throw e s2 →
  array_map f (pre ++ x :: post) s = Throw e s2.
Proof.
  revert s ys. induction pre as [|p pre IH]; intros s ys Hpre Hx; simpl in *.
  - injection Hpre as <- <-. by rewrite bind_run, Hx.
  - rewrite bind_run in *. destruct (f p s) as [y s'| |]; [|done..].
    rewrite bind_run in *.
    destruct (array_map f pre s') as [ys' s''| |] eqn:Hmap; [|done..].
    injection Hpre as <- <-. by rewrite (IH s' ys').
Qed.

(** A map that completes has called the callback on each element, and
    holds its results in their order. *)
Lemma array_map_results {A B} (f : A → M B) xs s ys s' :
  array_map f xs s = Normal ys s' →
  Forall2 (λ x y, ∃ sa sb, f x sa = Normal y sb) xs ys.
Proof.
  revert s ys. induction xs as [|x xs IH]; intros s ys Hrun; simpl in *.
  - injection Hrun as <- <-. constructor.
  - rewrite bind_run in Hrun. destruct (f x s) as [y s1| |] eqn:Hx; [|done..].
    rewrite bind_run in Hrun.
    destruct (array_map f xs s1) as [ys' s2| |] eqn:Hmap; [|done..].
    injection Hrun as <- <-. constructor; [by exists s, s1 | by eapply IH].
Qed.

(** X14 — The lists before the declarations.  [getVariableDeclarations]
    obtains the declaration list of every variable statement before it
    reads the declarations of any: when [getDeclarationList] raises on
    a statement, [getVariableDeclarations] raises that error in the
    store of the raise, whatever [getDeclarations] is and whatever the
    statements after it are. *)
Theorem getVariableDeclarations_lists_first
    (getMainChildrenOfKind : StatementedNode.t → SyntaxKind.t → M (list nat))
    (getDeclarationList : nat → M nat) (getDeclarations : nat → M (list nat))
    (this : StatementedNode.t) (s : Store) pre statement post s1 lists s2 e s3 :
  StatementedNode.getVariableStatements getMainChildrenOfKind this s =
    Normal (pre ++ statement :: post) s1 →
  array_map getDeclarationList pre s1 = Normal lists s2 →
  getDeclarationList statement s2 = Throw e s3 →
  StatementedNode.getVariableDeclarations
    getMainChildrenOfKind getDeclarationList getDeclarations this s = Throw e s3.
Proof.
  intros Hstatements Hpre Hraise.
  unfold StatementedNode.getVariableDeclarations,
    StatementedNode.getVariableDeclarationLists.
  rewrite !bind_run, Hstatements.
  by rewrite (array_map_raise _ pre statement post s1 lists s2 e s3).
Qed.

Lemma getVariableDeclarations_lists_first_witness :
  StatementedNode.getVariableDeclarations
    Sample.mainChildrenOfKind
    (λ statement, if decide (statement = 11) then throw TypeError
                  else mret (Sample.declarationListOf statement))
    (λ declarationList, mret (Sample.declarationsOf declarationList))
    SampleEdit.sourceFile Sample.store = Throw TypeError Sample.store.
Proof.
  apply (getVariableDeclarations_lists_first Sample.mainChildrenOfKind
           (λ statement, if decide (statement = 11) then throw TypeError
                         else mret (Sample.declarationListOf statement))
           (λ declarationList, mret (Sample.declarationsOf declarationList))
           SampleEdit.sourceFile Sample.store [10] 11 [] Sample.store [20] Sample.store
           TypeError Sample.store).
  - reflexivity.
  - reflexivity.
  - reflexivity.
Defined.

(** X15 — One list for each statement.  When
    [getVariableDeclarationLists] returns, it returns as many lists as
    there are variable statements, and the list at a position is what
    [getDeclarationList] returned for the statement at that position. *)
Theorem getVariableDeclarationLists_one_per_statement
    (getMainChildrenOfKind : StatementedNode.t → SyntaxKind.t → M (list nat))
    (getDeclarationList : nat → M nat)
    (this : StatementedNode.t) (s : Store) statements s1 lists s2 :
  StatementedNode.getVariableStatements getMainChildrenOfKind this s =
    Normal statements s1 →
  StatementedNode.getVariableDeclarationLists
    getMainChildrenOfKind getDeclarationList this s = Normal lists s2 →
  length lists = length statements ∧
  ∀ i statement, statements !! i = Some statement →
    ∃ declarationList sa sb,
      lists !! i = Some declarationList ∧
      getDeclarationList statement sa = Normal declarationList sb.
Proof.
  intros Hstatements Hlists.
  unfold StatementedNode.getVariableDeclarationLists in Hlists.
  rewrite bind_run, Hstatements in Hlists.
  apply array_map_results in Hlists. split.
  - symmetry. by eapply Forall2_length.
  - intros i statement Hi.
    destruct (Forall2_lookup_l _ _ _ _ _ Hlists Hi) as (l & Hl & sa & sb & Hrun).
    by exists l, sa, sb.
Qed.

Lemma getVariableDeclarationLists_one_per_statement_witness :
  length [20; 21] = length [10; 11] ∧
  ∀ i statement, [10; 11] !! i = Some statement →
    ∃ declarationList sa sb,
      [20; 21] !! i = Some declarationList ∧
      (mret (Sample.declarationListOf statement) : M nat) sa = Normal declarationList sb.
Proof.
  apply (getVariableDeclarationLists_one_per_statement Sample.mainChildrenOfKind
           (λ statement, mret (Sample.declarationListOf statement))
           SampleEdit.sourceFile Sample.store [10; 11] Sample.store [20; 21] Sample.store).
  - reflexivity.
  - reflexivity.
Defined.
